(** * checkForChanges: deployment-necessity check of the AWS deploy plugin

    Shallow embedding of [lib/plugins/aws/deploy/lib/checkForChanges.js].

    - JavaScript strings are [string]s, compared character by character
      ([String.compare]), as [<], [>] and the default [Array.prototype.sort]
      do on code units.
    - A [Date] is its time value in milliseconds since the epoch, a [Z];
      [null] and [undefined] are [None].
    - A promise is a computation over the deployment session: it threads the
      [shouldNotDeploy] flag and the list of calls made to the outside
      (provider requests, file reads, hashing, log lines), and either
      resolves with a value or rejects with an error. *)

From Stdlib Require Import ZArith String Ascii List Lia.
From stdpp Require Import base list strings gmap sorting.

Local Open Scope Z_scope.

(** ** JavaScript string primitives *)

Module JsString.

(** [s.split(sep)] for a one-character separator. *)
Fixpoint split (sep : ascii) (s : string) : list string :=
  match s with
  | EmptyString => [""]
  | String c s' =>
      if Ascii.eqb c sep then "" :: split sep s'
      else match split sep s' with
           | seg :: rest => String c seg :: rest
           | [] => [String c ""]
           end
  end.

(** [arr.join(sep)]; with [sep = ","] also what a template literal and
    [arr.toString()] print for an array. *)
Fixpoint join (sep : string) (l : list string) : string :=
  match l with
  | [] => ""
  | x :: l' =>
      match l' with
      | [] => x
      | _ :: _ => x +:+ sep +:+ join sep l'
      end
  end.

Fixpoint startsWith (p s : string) : bool :=
  match p, s with
  | EmptyString, _ => true
  | String a p', String b s' => Ascii.eqb a b && startsWith p' s'
  | String _ _, EmptyString => false
  end.

(** [s.includes(p)] *)
Fixpoint includes (p s : string) : bool :=
  startsWith p s ||
  match s with
  | EmptyString => false
  | String _ s' => includes p s'
  end.

(** [s.lastIndexOf(c)] for a one-character [c]: the greatest index holding
    [c], or [-1]. *)
Fixpoint lastIndexOf (c : ascii) (s : string) : Z :=
  match s with
  | EmptyString => -1
  | String a s' =>
      let r := lastIndexOf c s' in
      if 0 <=? r then r + 1
      else if Ascii.eqb a c then 0 else -1
  end.

Definition clamp (len : nat) (i : Z) : nat :=
  Nat.min (Z.to_nat i) len.

(** [s.substring(from, to)]: both ends are clamped to [0 .. s.length] and
    swapped when [from > to]. *)
Definition substring (s : string) (from to : Z) : string :=
  let a := clamp (String.length s) from in
  let b := clamp (String.length s) to in
  String.substring (Nat.min a b) (Nat.max a b - Nat.min a b) s.

(** [s.replace(/\r?\n/g, '')] *)
Fixpoint removeNewlines (s : string) : string :=
  match s with
  | EmptyString => ""
  | String c s' =>
      if Ascii.eqb c "010" then removeNewlines s'
      else if Ascii.eqb c "013" then
        match s' with
        | String c' s'' =>
            if Ascii.eqb c' "010" then removeNewlines s''
            else String c (removeNewlines s')
        | EmptyString => String c ""
        end
      else String c (removeNewlines s')
  end.

(** Number of occurrences of a character. *)
Fixpoint count (c : ascii) (s : string) : nat :=
  match s with
  | EmptyString => 0%nat
  | String a s' => ((if Ascii.eqb a c then 1 else 0) + count c s')%nat
  end.

End JsString.

(** ** [getLogicalIdFromFilterName] *)

(** [arr[i]] for a possibly negative index: [undefined] out of range. *)
Definition at_index {A} (arr : list A) (i : Z) : option A :=
  if i <? 0 then None else arr !! Z.to_nat i.

Definition getLogicalIdFromFilterName (filterName : string) : option string :=
  let split := JsString.split "-" filterName in
  at_index split (Z.of_nat (length split) - 2).

(** ** Errors, provider responses and the service description *)

Record ProviderError := { statusCode : Z }.

(** A rejection reason: its [message] and, for an error of the provider's
    request layer, the [providerError] it wraps. *)
Record JsError := { message : string; providerError : option ProviderError }.

(** [new ServerlessError(msg)] *)
Definition ServerlessError (msg : string) : JsError :=
  {| message := msg; providerError := None |}.

(** The [TypeError] a property access on [undefined] throws. *)
Definition TypeError (msg : string) : JsError :=
  {| message := msg; providerError := None |}.

Inductive Settled (A : Type) : Type :=
| Resolved (value : A)
| Rejected (reason : JsError).
Arguments Resolved {A} value.
Arguments Rejected {A} reason.

Module S3.

(** An entry of [listObjectsV2]'s [Contents]. *)
Record Object := { Key : string; ETag : string }.

Record ListObjectsV2Output := { Contents : option (list Object) }.

(** [headObject]'s answer: [LastModified] (a Date, when present) and the
    user metadata, which holds the uploaded file's hash under
    [filesha256]. *)
Record HeadObjectOutput :=
  { LastModified : option Z; Metadata : gmap string string }.

End S3.

Module Lambda.

(** [res.Configuration.LastModified], as the time value of
    [new Date(res.Configuration.LastModified)]. *)
Record FunctionConfiguration := { LastModified : Z }.

Record GetFunctionOutput := { Configuration : FunctionConfiguration }.

End Lambda.

Module CloudWatchLogs.

Record SubscriptionFilter := { filterName : string; destinationArn : string }.

Record DescribeSubscriptionFiltersOutput :=
  { subscriptionFilters : list SubscriptionFilter }.

End CloudWatchLogs.

Record AccountInfo := { accountId : string; partition : string }.

(** [event.cloudwatchLog] is a log group name or an object with a
    [logGroup]. *)
Inductive CloudwatchLog :=
| CloudwatchLogString (logGroup : string)
| CloudwatchLogObject (logGroup : string).

Record Event := { cloudwatchLog : option CloudwatchLog }.

Record FunctionObj := { name : string; events : option (list Event) }.

(** Everything the module reads through [this]: the options, the service,
    the provider with the answers its requests give, and the Node modules
    the check calls ([path], [globby], [fs], [crypto]). The answer to a
    request is a function of its parameters. *)
Record Plugin := {
  (* this.options *)
  force : bool;
  (* this.bucketName *)
  bucketName : string;
  (* this.serverless.service, this.serverless.config *)
  service : string;
  getAllFunctions : list string;
  getFunction : string -> FunctionObj;
  package_artifact : option string;
  (* JSON.stringify(normalizeFiles.normalizeCloudFormationTemplate(
       provider.compiledCloudFormationTemplate)) *)
  normCfTemplateJson : string;
  servicePath : string;
  (* this.provider *)
  getDeploymentPrefix : string;
  getStage : string;
  getRegion : string;
  getStackName : string;
  getCloudWatchLogLogicalId : string -> Z -> string;
  getAccountInfo : Settled AccountInfo;
  request_S3_listObjectsV2 : string -> string -> Settled S3.ListObjectsV2Output;
  request_S3_headObject : string -> string -> Settled S3.HeadObjectOutput;
  request_Lambda_getFunction : string -> Settled Lambda.GetFunctionOutput;
  request_describeSubscriptionFilters :
    string -> Settled CloudWatchLogs.DescribeSubscriptionFiltersOutput;
  request_deleteSubscriptionFilter : string -> string -> Settled unit;
  (* path, globby, fs, crypto *)
  path_join : string -> string -> string;
  path_resolve : string -> string -> string;
  globby_sync : string -> list string;
  readFile : string -> Settled string;
  sha256_base64 : string -> string
}.

(** ** The deployment session and promises *)

(** What the check does to the outside, in the order the model issues it.
    Promises that run concurrently are recorded one after the other, in the
    order they were created. A provider call is recorded where the module
    calls [provider.request]; the describe calls are made with [useCache],
    and whether the request layer answers one from its cache is not the
    module's doing. *)
Inductive Call :=
| S3_listObjectsV2 (Bucket Prefix : string)
| S3_headObject (Bucket Key : string)
| Lambda_getFunction (FunctionName : string)
| Provider_getAccountInfo
| CloudWatchLogs_describeSubscriptionFilters (logGroupName : string)
| CloudWatchLogs_deleteSubscriptionFilter (logGroupName filterName : string)
| Fs_readFile (path : string)
| Crypto_sha256 (data : string)
| Cli_log (msg : string).

Record Session := { shouldNotDeploy : bool; calls : list Call }.

(** The session before anything has happened. *)
Definition newSession : Session := {| shouldNotDeploy := false; calls := [] |}.

Definition Promise (A : Type) : Type := Session -> Settled A * Session.

Definition resolve {A} (a : A) : Promise A := fun s => (Resolved a, s).

Definition reject {A} (reason : JsError) : Promise A :=
  fun s => (Rejected reason, s).

(** [p.then(f)] *)
Definition then_ {A B} (p : Promise A) (f : A -> Promise B) : Promise B :=
  fun s =>
    match p s with
    | (Resolved a, s') => f a s'
    | (Rejected reason, s') => (Rejected reason, s')
    end.

(** [p.catch(h)] *)
Definition catch_ {A} (p : Promise A) (h : JsError -> Promise A) : Promise A :=
  fun s =>
    match p s with
    | (Resolved a, s') => (Resolved a, s')
    | (Rejected reason, s') => h reason s'
    end.

Notation "x <- p ;; k" := (then_ p (fun x => k))
  (at level 100, p at next level, right associativity).
Notation "p ;;; k" := (then_ p (fun _ => k))
  (at level 100, right associativity).

Definition record (c : Call) (s : Session) : Session :=
  {| shouldNotDeploy := shouldNotDeploy s; calls := calls s ++ [c] |}.

(** A call to the outside that settles as [answer]. *)
Definition perform {A} (c : Call) (answer : Settled A) : Promise A :=
  fun s => (answer, record c s).

(** [this.serverless.cli.log(msg, ...)] *)
Definition cli_log (msg : string) : Promise unit :=
  perform (Cli_log msg) (Resolved tt).

Definition set_shouldNotDeploy (b : bool) : Promise unit :=
  fun s => (Resolved tt, {| shouldNotDeploy := b; calls := calls s |}).

(** [Promise.all] / [BbPromise.all]: every promise of the list has already
    been started and runs to its end; the result is the list of values, or
    the first rejection. *)
Fixpoint all {A} (ps : list (Promise A)) : Promise (list A) :=
  fun s =>
    match ps with
    | [] => (Resolved [], s)
    | p :: ps' =>
        let (r, s1) := p s in
        let (rs, s2) := all ps' s1 in
        (match r, rs with
         | Resolved a, Resolved l => Resolved (a :: l)
         | Rejected reason, _ => Rejected reason
         | Resolved _, Rejected reason => Rejected reason
         end, s2)
    end.

(** [BbPromise.all([p, q])] for two promises of different types. *)
Definition all2 {A B} (p : Promise A) (q : Promise B) : Promise (A * B) :=
  fun s =>
    let (r, s1) := p s in
    let (r', s2) := q s1 in
    (match r, r' with
     | Resolved a, Resolved b => Resolved (a, b)
     | Rejected reason, _ => Rejected reason
     | Resolved _, Rejected reason => Rejected reason
     end, s2).

(** ** [getMostRecentObjects] *)

(** [_.orderBy(objects, ['Key'], ['desc'])]: a stable sort, greatest [Key]
    first; objects with equal keys keep their order. *)
Fixpoint insert_desc (x : S3.Object) (l : list S3.Object) : list S3.Object :=
  match l with
  | [] => [x]
  | y :: l' =>
      if String.leb (S3.Key y) (S3.Key x) then x :: y :: l'
      else y :: insert_desc x l'
  end.

Fixpoint orderBy_Key_desc (objects : list S3.Object) : list S3.Object :=
  match objects with
  | [] => []
  | x :: l => insert_desc x (orderBy_Key_desc l)
  end.

(** [key.substring(0, key.lastIndexOf('/'))] *)
Definition directoryOf (key : string) : string :=
  JsString.substring key 0 (JsString.lastIndexOf "/" key).

(** The double-quote character. *)
Definition dquote : string := String "034" EmptyString.

Definition bucketMissingMessage (Bucket stackName : string) : string :=
  JsString.join " "
    [ "The serverless deployment bucket " +:+ dquote +:+ Bucket +:+ dquote
        +:+ " does not exist.";
      "Create it manually if you want to reuse the CloudFormation stack "
        +:+ dquote +:+ stackName +:+ dquote +:+ ",";
      "or delete the stack if it is no longer required." ].

Definition getMostRecentObjects (this : Plugin) : Promise (list S3.Object) :=
  let Bucket := bucketName this in
  let Prefix :=
    getDeploymentPrefix this +:+ "/" +:+ service this +:+ "/" +:+ getStage this in
  result <-
    catch_
      (perform (S3_listObjectsV2 Bucket Prefix)
               (request_S3_listObjectsV2 this Bucket Prefix))
      (fun reason =>
         if negb (JsString.includes "The specified bucket does not exist"
                                    (message reason))
         then reject reason
         else
           let stackName := getStackName this in
           reject (ServerlessError (bucketMissingMessage Bucket stackName)));;
  match S3.Contents result with
  | Some ((_ :: _) as objects) =>
      let ordered := orderBy_Key_desc objects in
      match ordered with
      | first :: _ =>
          let firstKey := S3.Key first in
          let directory := directoryOf firstKey in
          let mostRecentObjects :=
            filter (fun obj => directory = directoryOf (S3.Key obj)) ordered in
          resolve mostRecentObjects
      | [] => reject (TypeError "Cannot read properties of undefined (reading 'Key')")
      end
  | _ => resolve []
  end.

(** ** [getFunctionsEarliestLastModifiedDate] *)

(** [err.providerError && err.providerError.statusCode === 403] *)
Definition isForbidden (err : JsError) : bool :=
  match providerError err with
  | Some pe => statusCode pe =? 403
  | None => false
  end.

Definition notAuthorizedWarning : string :=
  "WARNING: Not authorized to perform: lambda:GetFunction for at least one of the lambda functions."
  +:+ " Deployment will not be skipped even if service files did not change. ".

(** The reducer of [results.reduce(..., null)]; a Date is always truthy, so
    [!currentMin] holds for [null] only. *)
Definition earlier (currentMin : option Z) (date : Z) : option Z :=
  match currentMin with
  | None => Some date
  | Some m => if date <? m then Some date else Some m
  end.

(** One entry of [getFunctionResults]: the date the request settles to, and
    whether its handler set [couldNotAccessFunction]. *)
Definition getFunctionResult (this : Plugin) (funName : string)
  : Promise (Z * bool) :=
  let functionObj := getFunction this funName in
  catch_
    (res <- perform (Lambda_getFunction (name functionObj))
                    (request_Lambda_getFunction this (name functionObj));;
     resolve (Lambda.LastModified (Lambda.Configuration res), false))
    (fun err => resolve (0, isForbidden err)).

Definition getFunctionsEarliestLastModifiedDate (this : Plugin)
  : Promise (option Z) :=
  results <- all (map (getFunctionResult this) (getAllFunctions this));;
  let couldNotAccessFunction := existsb snd results in
  (if couldNotAccessFunction then cli_log notAuthorizedWarning else resolve tt);;;
  resolve (fold_left earlier (map fst results) None).

(** ** [getObjectMetadata] *)

Definition getObjectMetadata (this : Plugin) (objects : list S3.Object)
  : Promise (list S3.HeadObjectOutput) :=
  match objects with
  | _ :: _ =>
      all (map (fun obj =>
                  perform (S3_headObject (bucketName this) (S3.Key obj))
                          (request_S3_headObject this (bucketName this) (S3.Key obj)))
               objects)
  | [] => resolve []
  end.

(** ** [checkIfDeploymentIsNecessary] *)

(** [object.Metadata.filesha256 || ''] *)
Definition remoteHash (object : S3.HeadObjectOutput) : string :=
  match S3.Metadata object !! "filesha256" with
  | Some h => if String.eqb h "" then "" else h
  | None => ""
  end.

(** [Array.from(new Set(xs))]: the elements in order of first occurrence. *)
Fixpoint uniqueFrom (seen xs : list string) : list string :=
  match xs with
  | [] => []
  | x :: xs' =>
      if decide (x ∈ seen) then uniqueFrom seen xs'
      else x :: uniqueFrom (x :: seen) xs'
  end.

Definition unique (xs : list string) : list string := uniqueFrom [] xs.

(** The default [Array.prototype.sort()] on an array of strings: ascending
    in the order of [<]. *)
Definition sort (xs : list string) : list string :=
  merge_sort String.le xs.

(** [_.isEqual] on two arrays of strings. *)
Fixpoint isEqual (xs ys : list string) : bool :=
  match xs, ys with
  | [], [] => true
  | x :: xs', y :: ys' => String.eqb x y && isEqual xs' ys'
  | _, _ => false
  end.

(** [_.isEqual(remoteHashes.sort(), localHashes.sort())] *)
Definition areHashesEqual (remoteHashes localHashes : list string) : bool :=
  isEqual (sort remoteHashes) (sort localHashes).

(** [date > funcLastModifiedDate], where [funcLastModifiedDate] is a Date or
    [null]; the comparison turns [null] into the number 0. *)
Definition toNumber (date : option Z) : Z :=
  match date with
  | Some t => t
  | None => 0
  end.

(** [object.LastModified && object.LastModified > funcLastModifiedDate] *)
Definition modifiedAfter (funcLastModifiedDate : option Z)
    (object : S3.HeadObjectOutput) : bool :=
  match S3.LastModified object with
  | Some t => toNumber funcLastModifiedDate <? t
  | None => false
  end.

(** The artifact paths the check reads: the zip files found under
    [.serverless] and the service's own artifact, resolved and without
    repetition. *)
Definition zipFilePathsOf (this : Plugin) : list string * list string :=
  let serverlessDirPath := path_join this (servicePath this) ".serverless" in
  let zipFiles := globby_sync this serverlessDirPath in
  let zipFiles :=
    match package_artifact this with
    | Some artifact =>
        if String.eqb artifact "" then zipFiles
        else zipFiles ++ [path_resolve this (servicePath this) artifact]
    | None => zipFiles
    end in
  (zipFiles, unique (map (path_resolve this serverlessDirPath) zipFiles)).

Definition hashFile (this : Plugin) (zipFilePath : string) : Promise string :=
  zipFile <- perform (Fs_readFile zipFilePath) (readFile this zipFilePath);;
  perform (Crypto_sha256 zipFile) (Resolved (sha256_base64 this zipFile)).

Definition checkIfDeploymentIsNecessary (this : Plugin)
    (objects : list S3.HeadObjectOutput) (funcLastModifiedDate : option Z)
  : Promise unit :=
  match objects with
  | _ :: _ =>
      let remoteHashes := map remoteHash objects in
      localCfHash <-
        perform (Crypto_sha256 (normCfTemplateJson this))
                (Resolved (sha256_base64 this (normCfTemplateJson this)));;
      let '(zipFiles, zipFilePaths) := zipFilePathsOf this in
      cli_log "IS DEPLOYMENT NECESSARY";;;
      cli_log ("zipFiles: " +:+ JsString.join "," zipFiles);;;
      cli_log ("zipFilePaths: " +:+ JsString.join "," zipFilePaths);;;
      zipFileHashes <- all (map (hashFile this) zipFilePaths);;
      cli_log ("zipFileHashes: " +:+ JsString.join "," zipFileHashes);;;
      let localHashes := zipFileHashes ++ [localCfHash] in
      let changedAfterDeploy :=
        existsb (modifiedAfter funcLastModifiedDate) objects in
      let areHashesEqual := areHashesEqual remoteHashes localHashes in
      let remoteHashes := sort remoteHashes in
      let localHashes := sort localHashes in
      if negb changedAfterDeploy && areHashesEqual then
        set_shouldNotDeploy true;;;
        cli_log "Service files not changed. Skipping deployment..."
      else
        cli_log "NOT SKIPPING DEPLOYMENT";;;
        (if changedAfterDeploy
         then cli_log "REASON: Objects have been changed AFTER functions last modifications (probably a failed deploy)"
         else resolve tt);;;
        (if negb areHashesEqual then
           cli_log "REASON: Hashes are not equal";;;
           cli_log ("Remote hashes: " +:+ JsString.join "," remoteHashes);;;
           cli_log ("Local hashes: " +:+ JsString.join "," localHashes)
         else resolve tt)
  | [] => resolve tt
  end.

(** ** The log-subscription reconciler *)

Record FixParams := {
  p_accountId : string;
  p_logGroupName : string;
  p_functionName : string;
  p_functionObj : FunctionObj;
  p_region : string;
  p_partition : string;
  p_logSubscriptionSerialNumber : Z
}.

(** What [fixLogGroupSubscriptionFilters] resolves with: [false], the answer
    of the delete request, or [undefined]. *)
Inductive FixResult :=
| ReturnedFalse
| DeleteAnswered
| ReturnedUndefined.

Definition newDestinationArnOf (params : FixParams) : string :=
  "arn:" +:+ p_partition params +:+ ":lambda:" +:+ p_region params +:+ ":"
  +:+ p_accountId params +:+ ":function:" +:+ name (p_functionObj params).

Definition fixLogGroupSubscriptionFilters (this : Plugin) (params : FixParams)
  : Promise FixResult :=
  let logGroupName := p_logGroupName params in
  catch_
    (response <-
       perform (CloudWatchLogs_describeSubscriptionFilters logGroupName)
               (request_describeSubscriptionFilters this logGroupName);;
     match CloudWatchLogs.subscriptionFilters response with
     | [] => resolve ReturnedFalse
     | subscriptionFilter :: _ =>
         let filterName := CloudWatchLogs.filterName subscriptionFilter in
         let oldDestinationArn :=
           CloudWatchLogs.destinationArn subscriptionFilter in
         let newDestinationArn := newDestinationArnOf params in
         let oldLogicalId := getLogicalIdFromFilterName filterName in
         let newLogicalId :=
           getCloudWatchLogLogicalId this (p_functionName params)
             (p_logSubscriptionSerialNumber params) in
         if String.eqb oldDestinationArn newDestinationArn
            && bool_decide (oldLogicalId = Some newLogicalId)
         then resolve ReturnedFalse
         else
           perform (CloudWatchLogs_deleteSubscriptionFilter logGroupName filterName)
                   (request_deleteSubscriptionFilter this logGroupName filterName);;;
           resolve DeleteAnswered
     end)
    (fun _ => resolve ReturnedUndefined).

(** The log group an event binds, when [event.cloudwatchLog] is truthy (an
    empty string is not). *)
Definition logGroupNameOf (event : Event) : option string :=
  match cloudwatchLog event with
  | None => None
  | Some (CloudwatchLogObject logGroup) =>
      Some (JsString.removeNewlines logGroup)
  | Some (CloudwatchLogString logGroup) =>
      if String.eqb logGroup "" then None
      else Some (JsString.removeNewlines logGroup)
  end.

(** [functionObj.events.map(...)], with [logSubscriptionSerialNumber]
    counting the log-subscription events met so far. *)
Fixpoint eventPromises (this : Plugin) (account : AccountInfo) (region : string)
    (functionName : string) (functionObj : FunctionObj)
    (logSubscriptionSerialNumber : Z) (evs : list Event)
  : list (Promise FixResult) :=
  match evs with
  | [] => []
  | event :: evs' =>
      match logGroupNameOf event with
      | None =>
          resolve ReturnedUndefined
          :: eventPromises this account region functionName functionObj
               logSubscriptionSerialNumber evs'
      | Some logGroupName =>
          let logSubscriptionSerialNumber := logSubscriptionSerialNumber + 1 in
          fixLogGroupSubscriptionFilters this
            {| p_accountId := accountId account;
               p_logGroupName := logGroupName;
               p_functionName := functionName;
               p_functionObj := functionObj;
               p_region := region;
               p_partition := partition account;
               p_logSubscriptionSerialNumber := logSubscriptionSerialNumber |}
          :: eventPromises this account region functionName functionObj
               logSubscriptionSerialNumber evs'
      end
  end.

Definition checkLogGroupSubscriptionFilterResourceLimitExceeded (this : Plugin)
  : Promise (list (list FixResult)) :=
  let region := getRegion this in
  account <- perform Provider_getAccountInfo (getAccountInfo this);;
  all (map (fun functionName =>
              let functionObj := getFunction this functionName in
              match events functionObj with
              | None => resolve []
              | Some evs =>
                  all (eventPromises this account region functionName
                         functionObj 0 evs)
              end)
           (getAllFunctions this)).

(** ** [checkForChanges] *)

Definition checkForChanges (this : Plugin) : Promise unit :=
  set_shouldNotDeploy false;;;
  if force this then
    checkLogGroupSubscriptionFilterResourceLimitExceeded this;;; resolve tt
  else
    objs <- getMostRecentObjects this;;
    both <- all2 (getObjectMetadata this objs)
                 (getFunctionsEarliestLastModifiedDate this);;
    checkIfDeploymentIsNecessary this (fst both) (snd both);;;
    (fun s =>
       if shouldNotDeploy s then resolve tt s
       else (checkLogGroupSubscriptionFilterResourceLimitExceeded this;;;
             resolve tt) s).

(** ** Notions the statements use *)

(** The necessity evaluation: [checkForChanges]'s chain up to the point where
    the reconciler is gated on [shouldNotDeploy]. *)
Definition evaluation (this : Plugin) : Promise unit :=
  objs <- getMostRecentObjects this;;
  both <- all2 (getObjectMetadata this objs)
               (getFunctionsEarliestLastModifiedDate this);;
  checkIfDeploymentIsNecessary this (fst both) (snd both).



(** The values of a list of settled promises, or the first rejection. *)
Fixpoint settleAll {A} (rs : list (Settled A)) : Settled (list A) :=
  match rs with
  | [] => Resolved []
  | r :: rs' =>
      match r, settleAll rs' with
      | Resolved a, Resolved l => Resolved (a :: l)
      | Rejected reason, _ => Rejected reason
      | Resolved _, Rejected reason => Rejected reason
      end
  end.

(** The hash of one artifact file, when it can be read. *)
Definition fileHash (this : Plugin) (zipFilePath : string) : Settled string :=
  match readFile this zipFilePath with
  | Resolved zipFile => Resolved (sha256_base64 this zipFile)
  | Rejected reason => Rejected reason
  end.

(** The local hash list: the hashes of all artifacts followed by the
    template hash. It exists when every artifact can be read. *)
Definition LocalHashes (this : Plugin) (localHashes : list string) : Prop :=
  ∃ zipFileHashes,
    settleAll (map (fileHash this) (zipFilePathsOf this).2) = Resolved zipFileHashes
    ∧ localHashes = zipFileHashes ++ [sha256_base64 this (normCfTemplateJson this)].

(** Gate A: no remote object was modified strictly after the earliest
    function modification ([null] counts as the epoch, as [>] has it). *)
Definition GateA (objects : list S3.HeadObjectOutput)
    (funcLastModifiedDate : option Z) : Prop :=
  ∀ object t,
    object ∈ objects → S3.LastModified object = Some t →
    ¬ (toNumber funcLastModifiedDate < t).

(** Gate B: the remote hashes and the local hashes are equal as multisets. *)
Definition GateB (objects : list S3.HeadObjectOutput)
    (localHashes : list string) : Prop :=
  map remoteHash objects ≡ₚ localHashes.

(** What the scan takes as a function's date: the provider's, or the epoch
    when the request fails. *)
Definition functionDate (this : Plugin) (funName : string) : Z :=
  match request_Lambda_getFunction this (name (getFunction this funName)) with
  | Resolved res => Lambda.LastModified (Lambda.Configuration res)
  | Rejected _ => 0
  end.

(** The request for this function fails with status code 403. *)
Definition accessDenied (this : Plugin) (funName : string) : Prop :=
  ∃ err pe,
    request_Lambda_getFunction this (name (getFunction this funName)) = Rejected err
    ∧ providerError err = Some pe ∧ statusCode pe = 403.

(** [accessDenied] as a test. *)
Definition accessDeniedb (this : Plugin) (funName : string) : bool :=
  match request_Lambda_getFunction this (name (getFunction this funName)) with
  | Resolved _ => false
  | Rejected err => isForbidden err
  end.

(** The request the scan issues for a function. *)
Definition getFunctionCall (this : Plugin) (funName : string) : Call :=
  Lambda_getFunction (name (getFunction this funName)).

(** The number of log-subscription bindings among the events. *)
Definition bindings (evs : list Event) : Z :=
  Z.of_nat (length (filter (λ event, is_Some (logGroupNameOf event)) evs)).

(** [m] is the least element of [dates]. *)
Definition isMinimum (m : Z) (dates : list Z) : Prop :=
  m ∈ dates ∧ ∀ d, d ∈ dates → m ≤ d.

(** [seg] is the second-to-last hyphen-delimited segment of [s]. *)
Definition secondToLastSegment (s seg : string) : Prop :=
  ∃ pre last,
    s = pre +:+ "-" +:+ seg +:+ "-" +:+ last
    ∧ JsString.count "-" seg = 0%nat ∧ JsString.count "-" last = 0%nat.

(** The order [_.orderBy(.., ['Key'], ['desc'])] sorts by. *)
Definition keyDesc (x y : S3.Object) : Prop :=
  String.le (S3.Key y) (S3.Key x).

(** [d] is the key up to its last ['/'] (the empty string for a key without
    one). *)
Definition directoryPrefix (key d : string) : Prop :=
  (∃ file, key = d +:+ "/" +:+ file ∧ JsString.count "/" file = 0%nat)
  ∨ (JsString.count "/" key = 0%nat ∧ d = "").

(** Every call the promise adds to the session satisfies [P]. *)
Definition Emits {A} (P : Call → Prop) (p : Promise A) : Prop :=
  ∀ s, ∃ new, calls (p s).2 = calls s ++ new ∧ Forall P new.

(** The promise settles the same way from every session. *)
Definition SameResult {A} (p : Promise A) : Prop :=
  ∀ s s', (p s).1 = (p s').1.

(** The promise leaves [shouldNotDeploy] as it finds it. *)
Definition KeepsFlag {A} (p : Promise A) : Prop :=
  ∀ s, shouldNotDeploy (p s).2 = shouldNotDeploy s.

(** ** A sample service

    One function, [basic], with one log subscription; one packaged artifact.
    The provider's answers are parameters, so that the statements below can
    be run on concrete sessions. *)

Definition sampleFunction (funName : string) : FunctionObj :=
  {| name := "service-dev-" +:+ funName;
     events :=
       Some [ {| cloudwatchLog := Some (CloudwatchLogString "/aws/lambda/source") |} ] |}.

Definition samplePlugin (forced : bool)
    (listing : Settled S3.ListObjectsV2Output)
    (headObject : string → Settled S3.HeadObjectOutput)
    (getFunctionAnswer : string → Settled Lambda.GetFunctionOutput)
    (describe : Settled CloudWatchLogs.DescribeSubscriptionFiltersOutput)
    (deleteAnswer : Settled unit) : Plugin :=
  {| force := forced;
     bucketName := "deployment-bucket";
     service := "service";
     getAllFunctions := ["basic"];
     getFunction := sampleFunction;
     package_artifact := None;
     normCfTemplateJson := "{}";
     servicePath := "/srv";
     getDeploymentPrefix := "serverless";
     getStage := "dev";
     getRegion := "us-east-1";
     getStackName := "service-dev";
     getCloudWatchLogLogicalId :=
       λ functionName _, functionName +:+ "LogsSubscriptionFilterCloudWatchLog1";
     getAccountInfo := Resolved {| accountId := "123456789012"; partition := "aws" |};
     request_S3_listObjectsV2 := λ _ _, listing;
     request_S3_headObject := λ _ key, headObject key;
     request_Lambda_getFunction := getFunctionAnswer;
     request_describeSubscriptionFilters := λ _, describe;
     request_deleteSubscriptionFilter := λ _ _, deleteAnswer;
     path_join := λ a b, a +:+ "/" +:+ b;
     path_resolve := λ a b, a +:+ "/" +:+ b;
     globby_sync := λ _, ["service.zip"];
     readFile := λ path, Resolved ("zip:" +:+ path);
     sha256_base64 := λ data, "sha256:" +:+ data |}.

Definition noListing : Settled S3.ListObjectsV2Output :=
  Resolved {| S3.Contents := None |}.

Definition noObject (key : string) : Settled S3.HeadObjectOutput :=
  Rejected {| message := "NotFound"; providerError := Some {| statusCode := 404 |} |}.

Definition functionAt (t : Z) (FunctionName : string)
  : Settled Lambda.GetFunctionOutput :=
  Resolved {| Lambda.Configuration := {| Lambda.LastModified := t |} |}.

Definition functionForbidden (FunctionName : string)
  : Settled Lambda.GetFunctionOutput :=
  Rejected {| message := "User is not authorized to perform: lambda:GetFunction";
              providerError := Some {| statusCode := 403 |} |}.

(** A filter left by an earlier deployment, bound to another function. *)
Definition staleFilter : CloudWatchLogs.SubscriptionFilter :=
  {| CloudWatchLogs.filterName :=
       "service-dev-OldLogsSubscriptionFilterCloudWatchLog1-AB12CD";
     CloudWatchLogs.destinationArn :=
       "arn:aws:lambda:us-east-1:123456789012:function:service-dev-old" |}.

Definition describesStaleFilter
  : Settled CloudWatchLogs.DescribeSubscriptionFiltersOutput :=
  Resolved {| CloudWatchLogs.subscriptionFilters := [staleFilter] |}.

Definition deleteDenied : Settled unit :=
  Rejected {| message := "User is not authorized to perform: logs:DeleteSubscriptionFilter";
              providerError := Some {| statusCode := 400 |} |}.

(** A forced check of a service whose log group holds a stale filter that
    the provider refuses to delete. *)
Definition deleteDeniedPlugin : Plugin :=
  samplePlugin true noListing noObject (functionAt 1700000000000)
    describesStaleFilter deleteDenied.

Definition sampleFixParams : FixParams :=
  {| p_accountId := "123456789012";
     p_logGroupName := "/aws/lambda/source";
     p_functionName := "basic";
     p_functionObj := sampleFunction "basic";
     p_region := "us-east-1";
     p_partition := "aws";
     p_logSubscriptionSerialNumber := 1 |}.

(** Two generations of uploads under the service's prefix. *)
Definition sampleListing : list S3.Object :=
  [ {| S3.Key := "serverless/service/dev/1600000000000-2020-09-13T12:26:40.000Z/service.zip";
       S3.ETag := "e1" |};
    {| S3.Key := "serverless/service/dev/1700000000000-2023-11-14T22:13:20.000Z/compiled-cloudformation-template.json";
       S3.ETag := "e2" |};
    {| S3.Key := "serverless/service/dev/1700000000000-2023-11-14T22:13:20.000Z/service.zip";
       S3.ETag := "e3" |} ].

Definition bucketGone : Settled S3.ListObjectsV2Output :=
  Rejected {| message := "The specified bucket does not exist";
              providerError := Some {| statusCode := 404 |} |}.

(** Head answers of an unchanged deployment uploaded at time 1000. *)
Definition unchangedObjects : list S3.HeadObjectOutput :=
  [ {| S3.LastModified := Some 1000;
       S3.Metadata := {[ "filesha256" := "sha256:zip:/srv/.serverless/service.zip" ]} |};
    {| S3.LastModified := Some 1000;
       S3.Metadata := {[ "filesha256" := "sha256:{}" ]} |} ].

(** A head answer without [filesha256]. *)
Definition unhashedObject : S3.HeadObjectOutput :=
  {| S3.LastModified := Some 1000; S3.Metadata := ∅ |}.

(** An unforced check of the sample service: nothing uploaded yet, the
    function last modified at time 2000, no subscription filter. *)
Definition quietPlugin : Plugin :=
  samplePlugin false noListing noObject (functionAt 2000)
    (Resolved {| CloudWatchLogs.subscriptionFilters := [] |}) (Resolved tt).

(** The sample service with the two generations uploaded. *)
Definition listedPlugin : Plugin :=
  samplePlugin false (Resolved {| S3.Contents := Some sampleListing |})
    noObject (functionAt 2000)
    (Resolved {| CloudWatchLogs.subscriptionFilters := [] |}) (Resolved tt).

(** The sample service when its deployment bucket is gone. *)
Definition bucketGonePlugin : Plugin :=
  samplePlugin false bucketGone noObject (functionAt 2000)
    (Resolved {| CloudWatchLogs.subscriptionFilters := [] |}) (Resolved tt).

(** The sample service when [lambda:GetFunction] is not permitted. *)
Definition forbiddenPlugin : Plugin :=
  samplePlugin false noListing noObject functionForbidden
    (Resolved {| CloudWatchLogs.subscriptionFilters := [] |}) (Resolved tt).

(** ** Further notions *)

(** The promise resolves from every session. *)
Definition NeverRejects {A} (p : Promise A) : Prop :=
  ∀ s, ∃ v, (p s).1 = Resolved v.

(** The request [getObjectMetadata] issues for an object, and its answer. *)
Definition headObjectCall (this : Plugin) (obj : S3.Object) : Call :=
  S3_headObject (bucketName this) (S3.Key obj).

Definition headObjectAnswer (this : Plugin) (obj : S3.Object)
  : Settled S3.HeadObjectOutput :=
  request_S3_headObject this (bucketName this) (S3.Key obj).

(** The calls made to hash the artifacts: every file is read, and hashed
    when the read succeeds. *)
Definition hashCalls (this : Plugin) (paths : list string) : list Call :=
  flat_map
    (λ path,
       Fs_readFile path
       :: match readFile this path with
          | Resolved zipFile => [Crypto_sha256 zipFile]
          | Rejected _ => []
          end)
    paths.

(** The paths of the file reads among some calls, in order. *)
Definition readPaths (cs : list Call) : list string :=
  flat_map (λ c, match c with Fs_readFile path => [path] | _ => [] end) cs.

(** A line with this very message was logged among the calls. *)
Definition hasLog (msg : string) (cs : list Call) : bool :=
  existsb (λ c, match c with Cli_log m => String.eqb m msg | _ => false end) cs.

(** The lines that report the verdict and its reasons. *)
Definition skippingLine : string :=
  "Service files not changed. Skipping deployment...".

Definition notSkippingLine : string := "NOT SKIPPING DEPLOYMENT".

Definition driftLine : string :=
  "REASON: Objects have been changed AFTER functions last modifications (probably a failed deploy)".

Definition hashesLine : string := "REASON: Hashes are not equal".

(** What [checkIfDeploymentIsNecessary] does before the verdict: it hashes
    the template, logs the artifact lists and hashes the artifacts. *)
Definition preambleCalls (this : Plugin) : list Call :=
  [ Crypto_sha256 (normCfTemplateJson this);
    Cli_log "IS DEPLOYMENT NECESSARY";
    Cli_log ("zipFiles: " +:+ JsString.join "," (zipFilePathsOf this).1);
    Cli_log ("zipFilePaths: " +:+ JsString.join "," (zipFilePathsOf this).2) ]
  ++ hashCalls this (zipFilePathsOf this).2.

(** The lines logged once the hashes are known. *)
Definition verdictCalls (changedAfterDeploy areHashesEqual : bool)
    (zipFileHashes remoteHashes localHashes : list string) : list Call :=
  Cli_log ("zipFileHashes: " +:+ JsString.join "," zipFileHashes)
  :: if negb changedAfterDeploy && areHashesEqual
     then [Cli_log skippingLine]
     else
       [Cli_log notSkippingLine]
       ++ (if changedAfterDeploy then [Cli_log driftLine] else [])
       ++ (if negb areHashesEqual
           then [ Cli_log hashesLine;
                  Cli_log ("Remote hashes: " +:+ JsString.join "," remoteHashes);
                  Cli_log ("Local hashes: " +:+ JsString.join "," localHashes) ]
           else []).

(** Calls of the three fetches of the evaluation: the listing, the metadata
    and function requests, and the warning line. *)
Definition isFetchCall (c : Call) : bool :=
  match c with
  | S3_listObjectsV2 _ _ | S3_headObject _ _ | Lambda_getFunction _
  | Cli_log _ => true
  | _ => false
  end.

Definition isDescribeCall (c : Call) : bool :=
  match c with
  | CloudWatchLogs_describeSubscriptionFilters _ => true
  | _ => false
  end.

Definition isDeleteCall (c : Call) : bool :=
  match c with
  | CloudWatchLogs_deleteSubscriptionFilter _ _ => true
  | _ => false
  end.

(** How many of the calls pass the test. *)
Definition countCalls (f : Call → bool) (cs : list Call) : nat :=
  length (List.filter f cs).

(** The promise adds [n] describe calls and at most as many deletes. *)
Definition Tally {A} (n : nat) (p : Promise A) : Prop :=
  ∀ s, ∃ new,
    calls (p s).2 = calls s ++ new
    ∧ countCalls isDescribeCall new = n
    ∧ (countCalls isDeleteCall new ≤ n)%nat.

(** The number of log-subscription bindings the service declares, over all
    functions. *)
Definition totalBindings (this : Plugin) : Z :=
  foldr Z.add 0
    (map (λ functionName,
            match events (getFunction this functionName) with
            | Some evs => bindings evs
            | None => 0
            end)
         (getAllFunctions this)).

(** ** Further samples *)

(** Events of a function: no binding, a binding with a line break in its
    name, an empty binding, a second binding. *)
Definition sampleEvents : list Event :=
  [ {| cloudwatchLog := None |};
    {| cloudwatchLog := Some (CloudwatchLogObject ("/aws/lambda/" +:+ String "010" "first")) |};
    {| cloudwatchLog := Some (CloudwatchLogString "") |};
    {| cloudwatchLog := Some (CloudwatchLogString "/aws/lambda/second") |} ].

(** A filter for the right function whose name holds no hyphen. *)
Definition unnamedFilter : CloudWatchLogs.SubscriptionFilter :=
  {| CloudWatchLogs.filterName := "legacyfilter";
     CloudWatchLogs.destinationArn :=
       "arn:aws:lambda:us-east-1:123456789012:function:service-dev-basic" |}.

Definition unnamedFilterPlugin : Plugin :=
  samplePlugin true noListing noObject (functionAt 2000)
    (Resolved {| CloudWatchLogs.subscriptionFilters := [unnamedFilter] |})
    (Resolved tt).

(** Metadata of an object uploaded at time 1000. *)
Definition uploadedAt1000 : S3.HeadObjectOutput :=
  {| S3.LastModified := Some 1000;
     S3.Metadata := {[ "filesha256" := "sha256:{}" ]} |}.

(** The listed sample service when [lambda:GetFunction] is not permitted. *)
Definition forbiddenListedPlugin : Plugin :=
  samplePlugin false (Resolved {| S3.Contents := Some sampleListing |})
    (λ _, Resolved uploadedAt1000) functionForbidden
    (Resolved {| CloudWatchLogs.subscriptionFilters := [] |}) (Resolved tt).

(** The latest generation of the sample listing. *)
Definition sampleLatest : list S3.Object :=
  [ {| S3.Key := "serverless/service/dev/1700000000000-2023-11-14T22:13:20.000Z/service.zip";
       S3.ETag := "e3" |};
    {| S3.Key := "serverless/service/dev/1700000000000-2023-11-14T22:13:20.000Z/compiled-cloudformation-template.json";
       S3.ETag := "e2" |} ].


(** The prefix the deployment's objects are listed under. *)
Definition listingPrefix (this : Plugin) : string :=
  getDeploymentPrefix this +:+ "/" +:+ service this +:+ "/" +:+ getStage this.

(** The reason [getMostRecentObjects] rejects with when the listing is
    rejected with [reason]. *)
Definition listingRejection (this : Plugin) (reason : JsError) : JsError :=
  if JsString.includes "The specified bucket does not exist" (message reason)
  then ServerlessError (bucketMissingMessage (bucketName this) (getStackName this))
  else reason.

(** ** The gates, stated on the stored metadata and the files on disk *)

(** [h] is the hash stored with the remote object: the value of its
    [filesha256] metadata, or the empty string when it has none. *)
Definition StoredHash (object : S3.HeadObjectOutput) (h : string) : Prop :=
  S3.Metadata object !! "filesha256" = Some h
  ∨ (S3.Metadata object !! "filesha256" = None ∧ h = "").

(** The remote hash list: the stored hash of every remote object, in
    order. *)
Definition RemoteHashes (objects : list S3.HeadObjectOutput)
    (remoteHashes : list string) : Prop :=
  Forall2 StoredHash objects remoteHashes.

(** The [.serverless] directory of the service. *)
Definition serverlessDir (this : Plugin) : string :=
  path_join this (servicePath this) ".serverless".

(** [path] is one of the service's artifacts: a zip file found under
    [.serverless], or the artifact the service declares in
    [package.artifact], resolved. *)
Definition ArtifactFile (this : Plugin) (path : string) : Prop :=
  (∃ zipFile,
     zipFile ∈ globby_sync this (serverlessDir this)
     ∧ path = path_resolve this (serverlessDir this) zipFile)
  ∨ (∃ artifact,
       package_artifact this = Some artifact
       ∧ artifact ≠ ""
       ∧ path = path_resolve this (serverlessDir this)
                  (path_resolve this (servicePath this) artifact)).

(** A local hash list: the hash of the content of every artifact, each
    artifact once, and the hash of the template. It exists when every
    artifact can be read, and is determined up to the order of the
    artifacts. *)
Definition LocalHashList (this : Plugin) (localHashes : list string) : Prop :=
  ∃ paths contents,
    NoDup paths
    ∧ (∀ path, path ∈ paths ↔ ArtifactFile this path)
    ∧ Forall2 (λ path content, readFile this path = Resolved content)
        paths contents
    ∧ localHashes
      = map (sha256_base64 this) contents
        ++ [sha256_base64 this (normCfTemplateJson this)].

(** Gate B on the stored hashes: the remote hash list equals the local one
    as a multiset. *)
Definition HashGate (objects : list S3.HeadObjectOutput)
    (localHashes : list string) : Prop :=
  ∃ remoteHashes,
    RemoteHashes objects remoteHashes ∧ remoteHashes ≡ₚ localHashes.

(** The event declares a log subscription: [cloudwatchLog] is an object or
    a non-empty string. *)
Definition bindsLogGroup (event : Event) : bool :=
  match cloudwatchLog event with
  | Some (CloudwatchLogObject _) => true
  | Some (CloudwatchLogString logGroup) => negb (String.eqb logGroup "")
  | None => false
  end.

(** The number of log subscriptions the service declares, over the events
    of all its functions. *)
Definition declaredBindings (this : Plugin) : nat :=
  sum_list
    (map (λ functionName,
            match events (getFunction this functionName) with
            | Some evs => length (List.filter bindsLogGroup evs)
            | None => 0%nat
            end)
         (getAllFunctions this)).

(** The metadata the sample service's uploads carry, by key. *)
Definition headUnchanged (key : string) : Settled S3.HeadObjectOutput :=
  if String.eqb key
       "serverless/service/dev/1700000000000-2023-11-14T22:13:20.000Z/service.zip"
  then Resolved
         {| S3.LastModified := Some 1000;
            S3.Metadata :=
              {[ "filesha256" := "sha256:zip:/srv/.serverless/service.zip" ]} |}
  else Resolved
         {| S3.LastModified := Some 1000;
            S3.Metadata := {[ "filesha256" := "sha256:{}" ]} |}.

(** The sample service, uploaded and unchanged since. *)
Definition unchangedPlugin : Plugin :=
  samplePlugin false (Resolved {| S3.Contents := Some sampleListing |})
    headUnchanged (functionAt 2000)
    (Resolved {| CloudWatchLogs.subscriptionFilters := [] |}) (Resolved tt).

(** A service that also declares its own artifact, [dist/app.zip]. *)
Definition artifactPlugin : Plugin :=
  {| force := false;
     bucketName := "deployment-bucket";
     service := "service";
     getAllFunctions := ["basic"];
     getFunction := sampleFunction;
     package_artifact := Some "dist/app.zip";
     normCfTemplateJson := "{}";
     servicePath := "/srv";
     getDeploymentPrefix := "serverless";
     getStage := "dev";
     getRegion := "us-east-1";
     getStackName := "service-dev";
     getCloudWatchLogLogicalId :=
       λ functionName _, functionName +:+ "LogsSubscriptionFilterCloudWatchLog1";
     getAccountInfo := Resolved {| accountId := "123456789012"; partition := "aws" |};
     request_S3_listObjectsV2 := λ _ _, noListing;
     request_S3_headObject := λ _ key, noObject key;
     request_Lambda_getFunction := functionAt 2000;
     request_describeSubscriptionFilters :=
       λ _, Resolved {| CloudWatchLogs.subscriptionFilters := [] |};
     request_deleteSubscriptionFilter := λ _ _, Resolved tt;
     path_join := λ a b, a +:+ "/" +:+ b;
     path_resolve :=
       λ a b, if JsString.startsWith "/" b then b else a +:+ "/" +:+ b;
     globby_sync := λ _, ["service.zip"];
     readFile := λ path, Resolved ("zip:" +:+ path);
     sha256_base64 := λ data, "sha256:" +:+ data |}.

(** * Properties *)

(** ** Strings *)

Section string_facts.

Local Open Scope nat_scope.

Lemma eqb_ascii_refl (c : ascii) : Ascii.eqb c c = true.
Proof. by apply Ascii.eqb_eq. Qed.

Lemma split_not_nil (c : ascii) (s : string) : JsString.split c s ≠ [].
Proof.
  destruct s as [|a s]; simpl; [done|].
  destruct (Ascii.eqb a c); [done|].
  by destruct (JsString.split c s).
Qed.

Lemma split_no_separator (c : ascii) (s : string) :
  JsString.count c s = 0 → JsString.split c s = [s].
Proof.
  induction s as [|a s IH]; simpl; [done|].
  destruct (Ascii.eqb a c); [done|].
  intros H. by rewrite IH.
Qed.

Lemma split_app_separator (c : ascii) (a b : string) :
  JsString.split c (a +:+ String c b) = JsString.split c a ++ JsString.split c b.
Proof.
  induction a as [|x a IH]; simpl.
  - by rewrite eqb_ascii_refl.
  - destruct (Ascii.eqb x c); [by rewrite IH|].
    rewrite IH. pose proof (split_not_nil c a) as Hne.
    by destruct (JsString.split c a).
Qed.

Lemma count_app (c : ascii) (a b : string) :
  JsString.count c (a +:+ b) = JsString.count c a + JsString.count c b.
Proof. induction a as [|x a IH]; simpl; [done|]. rewrite IH. lia. Qed.

(** A string holding [c] splits at its last occurrence. *)
Lemma split_at_last (c : ascii) (s : string) :
  1 ≤ JsString.count c s →
  ∃ a b, s = a +:+ String c b ∧ JsString.count c b = 0
         ∧ JsString.count c s = S (JsString.count c a).
Proof.
  induction s as [|x s IH]; simpl; [lia|].
  destruct (JsString.count c s) as [|n] eqn:Hn.
  - destruct (Ascii.eqb x c) eqn:Hx; [|simpl; lia].
    apply Ascii.eqb_eq in Hx as ->. intros _.
    by exists EmptyString, s.
  - intros _. destruct IH as (a & b & -> & Hb & Ha); [lia|].
    exists (String x a), b. simpl. repeat split; [done|]. lia.
Qed.

Lemma string_app_assoc (a b c : string) : (a +:+ b) +:+ c = a +:+ b +:+ c.
Proof.
  induction a as [|x a IH]; [done|].
  change (String x ((a +:+ b) +:+ c) = String x (a +:+ b +:+ c)).
  by rewrite IH.
Qed.

Lemma getLogicalId_of_segments (pre seg last : string) :
  JsString.count "-" seg = 0 → JsString.count "-" last = 0 →
  getLogicalIdFromFilterName (pre +:+ "-" +:+ seg +:+ "-" +:+ last) = Some seg.
Proof.
  intros Hseg Hlast. unfold getLogicalIdFromFilterName. cbv zeta.
  change ("-" +:+ seg +:+ "-" +:+ last) with (String "-" (seg +:+ String "-" last)).
  rewrite !split_app_separator, (split_no_separator _ seg),
    (split_no_separator _ last) by done.
  unfold at_index. rewrite !length_app. simpl length.
  case_match eqn:Hneg; [apply Z.ltb_lt in Hneg; lia|].
  replace (Z.to_nat _) with (length (JsString.split "-" pre) + 0) by lia.
  by rewrite lookup_app_r, Nat.add_comm, Nat.add_sub by lia.
Qed.

End string_facts.

(** ** The logical id of a subscription filter *)

(** C9. Every filter name with at least two hyphens has a second-to-last
    hyphen-delimited segment, and [getLogicalIdFromFilterName] returns it;
    whenever a name ends in [-seg-last] with hyphen-free [seg] and [last],
    the result is [seg], whatever hyphens the stack name before it holds.
    Both names of the specification give ["myFunc"]. *)
Theorem getLogicalIdFromFilterName_second_to_last :
  (∀ filterName,
     (2 ≤ JsString.count "-" filterName)%nat →
     ∃ seg, secondToLastSegment filterName seg
            ∧ getLogicalIdFromFilterName filterName = Some seg)
  ∧ (∀ filterName seg,
       secondToLastSegment filterName seg →
       getLogicalIdFromFilterName filterName = Some seg)
  ∧ getLogicalIdFromFilterName "mystack-myFunc-AB12CD" = Some "myFunc"
  ∧ getLogicalIdFromFilterName "my-stack-myFunc-AB12CD" = Some "myFunc".
Proof.
  assert (Hseg : ∀ filterName seg,
             secondToLastSegment filterName seg →
             getLogicalIdFromFilterName filterName = Some seg).
  { intros filterName seg (pre & last & -> & Hs & Hl).
    by apply getLogicalId_of_segments. }
  split; [|split; [exact Hseg|split; reflexivity]].
  intros filterName Hcount.
  destruct (split_at_last "-" filterName) as (a & last & -> & Hlast & Ha); [lia|].
  destruct (split_at_last "-" a) as (pre & seg & -> & Hs & _); [lia|].
  assert (Hsec : secondToLastSegment ((pre +:+ String "-" seg) +:+ String "-" last) seg).
  { exists pre, last. by rewrite string_app_assoc. }
  exists seg. split; [done|]. by apply Hseg.
Qed.

Lemma getLogicalIdFromFilterName_second_to_last_witness :
  (2 ≤ JsString.count "-" "my-stack-myFunc-AB12CD")%nat
  ∧ ∃ seg, secondToLastSegment "my-stack-myFunc-AB12CD" seg
           ∧ getLogicalIdFromFilterName "my-stack-myFunc-AB12CD" = Some seg.
Proof.
  assert (H : (2 ≤ JsString.count "-" "my-stack-myFunc-AB12CD")%nat)
    by (vm_compute; lia).
  split; [exact H|].
  exact (proj1 getLogicalIdFromFilterName_second_to_last _ H).
Defined.

(** ** Promises *)

Section promise_facts.

Context {A B : Type}.
Implicit Types (P Q : Call → Prop) (p : Promise A) (q : Promise B).

Lemma emits_resolve P (a : A) : Emits P (resolve a).
Proof. intros s. exists []. by rewrite app_nil_r. Qed.

Lemma emits_reject P (reason : JsError) : Emits P (@reject A reason).
Proof. intros s. exists []. by rewrite app_nil_r. Qed.

Lemma emits_perform P (c : Call) (answer : Settled A) :
  P c → Emits P (perform c answer).
Proof. intros Hc s. exists [c]. split; [done|]. by constructor. Qed.

Lemma emits_then P p (f : A → Promise B) :
  Emits P p → (∀ a, Emits P (f a)) → Emits P (then_ p f).
Proof.
  intros Hp Hf s. unfold then_.
  destruct (Hp s) as (n1 & E1 & F1).
  destruct (p s) as [[a|reason] s1]; simpl in *; [|by exists n1].
  destruct (Hf a s1) as (n2 & E2 & F2).
  exists (n1 ++ n2). rewrite E2, E1, app_assoc.
  split; [done|]. by apply Forall_app.
Qed.

Lemma emits_catch P p (h : JsError → Promise A) :
  Emits P p → (∀ reason, Emits P (h reason)) → Emits P (catch_ p h).
Proof.
  intros Hp Hh s. unfold catch_.
  destruct (Hp s) as (n1 & E1 & F1).
  destruct (p s) as [[a|reason] s1]; simpl in *; [by exists n1|].
  destruct (Hh reason s1) as (n2 & E2 & F2).
  exists (n1 ++ n2). rewrite E2, E1, app_assoc.
  split; [done|]. by apply Forall_app.
Qed.

Lemma emits_all P (ps : list (Promise A)) :
  Forall (Emits P) ps → Emits P (all ps).
Proof.
  induction 1 as [|p ps Hp _ IH]; intros s; simpl.
  { exists []. by rewrite app_nil_r. }
  destruct (Hp s) as (n1 & E1 & F1).
  destruct (p s) as [r s1]; simpl in *.
  destruct (IH s1) as (n2 & E2 & F2).
  destruct (all ps s1) as [rs s2]; simpl in *.
  exists (n1 ++ n2). rewrite E2, E1, app_assoc.
  split; [done|]. by apply Forall_app.
Qed.

Lemma emits_all2 P p q : Emits P p → Emits P q → Emits P (all2 p q).
Proof.
  intros Hp Hq s. unfold all2.
  destruct (Hp s) as (n1 & E1 & F1).
  destruct (p s) as [r s1]; simpl in *.
  destruct (Hq s1) as (n2 & E2 & F2).
  destruct (q s1) as [r' s2]; simpl in *.
  exists (n1 ++ n2). rewrite E2, E1, app_assoc.
  split; [done|]. by apply Forall_app.
Qed.

Lemma keeps_resolve (a : A) : KeepsFlag (resolve a).
Proof. done. Qed.

Lemma keeps_reject (reason : JsError) : KeepsFlag (@reject A reason).
Proof. done. Qed.

Lemma keeps_perform (c : Call) (answer : Settled A) :
  KeepsFlag (perform c answer).
Proof. done. Qed.

Lemma keeps_then p (f : A → Promise B) :
  KeepsFlag p → (∀ a, KeepsFlag (f a)) → KeepsFlag (then_ p f).
Proof.
  intros Hp Hf s. unfold then_. specialize (Hp s).
  destruct (p s) as [[a|reason] s1]; simpl in *; [|done].
  by rewrite Hf.
Qed.

Lemma keeps_catch p (h : JsError → Promise A) :
  KeepsFlag p → (∀ reason, KeepsFlag (h reason)) → KeepsFlag (catch_ p h).
Proof.
  intros Hp Hh s. unfold catch_. specialize (Hp s).
  destruct (p s) as [[a|reason] s1]; simpl in *; [done|].
  by rewrite Hh.
Qed.

Lemma keeps_all (ps : list (Promise A)) :
  Forall KeepsFlag ps → KeepsFlag (all ps).
Proof.
  induction 1 as [|p ps Hp _ IH]; intros s; simpl; [done|].
  specialize (Hp s). destruct (p s) as [r s1]; simpl in *.
  specialize (IH s1). destruct (all ps s1) as [rs s2]; simpl in *.
  congruence.
Qed.

Lemma keeps_all2 p q : KeepsFlag p → KeepsFlag q → KeepsFlag (all2 p q).
Proof.
  intros Hp Hq s. unfold all2.
  specialize (Hp s). destruct (p s) as [r s1]; simpl in *.
  specialize (Hq s1). destruct (q s1) as [r' s2]; simpl in *.
  congruence.
Qed.

Lemma same_resolve (a : A) : SameResult (resolve a).
Proof. done. Qed.

Lemma same_reject (reason : JsError) : SameResult (@reject A reason).
Proof. done. Qed.

Lemma same_perform (c : Call) (answer : Settled A) :
  SameResult (perform c answer).
Proof. done. Qed.

Lemma same_then p (f : A → Promise B) :
  SameResult p → (∀ a, SameResult (f a)) → SameResult (then_ p f).
Proof.
  intros Hp Hf s s'. unfold then_. specialize (Hp s s').
  destruct (p s) as [[a|reason] s1], (p s') as [[a'|reason'] s1'];
    simplify_eq/=; [apply Hf|done].
Qed.

Lemma same_catch p (h : JsError → Promise A) :
  SameResult p → (∀ reason, SameResult (h reason)) → SameResult (catch_ p h).
Proof.
  intros Hp Hh s s'. unfold catch_. specialize (Hp s s').
  destruct (p s) as [[a|reason] s1], (p s') as [[a'|reason'] s1'];
    simplify_eq/=; [done|apply Hh].
Qed.

Lemma same_all (ps : list (Promise A)) :
  Forall SameResult ps → SameResult (all ps).
Proof.
  induction 1 as [|p ps Hp _ IH]; intros s s'; simpl; [done|].
  specialize (Hp s s').
  destruct (p s) as [r s1], (p s') as [r' s1']. simpl in Hp. subst r'.
  specialize (IH s1 s1').
  destruct (all ps s1) as [rs s2], (all ps s1') as [rs' s2']. simpl in IH.
  by subst rs'.
Qed.

Lemma same_all2 p q : SameResult p → SameResult q → SameResult (all2 p q).
Proof.
  intros Hp Hq s s'. unfold all2. specialize (Hp s s').
  destruct (p s) as [r s1], (p s') as [r' s1']. simpl in Hp. subst r'.
  specialize (Hq s1 s1').
  destruct (q s1) as [t s2], (q s1') as [t' s2']. simpl in Hq.
  by subst t'.
Qed.

End promise_facts.

Lemma emits_all_map {X A} (P : Call → Prop) (f : X → Promise A) (l : list X) :
  (∀ x, Emits P (f x)) → Emits P (all (map f l)).
Proof. intros Hf. apply emits_all, Forall_map, Forall_forall. by intros. Qed.

Lemma keeps_all_map {X A} (f : X → Promise A) (l : list X) :
  (∀ x, KeepsFlag (f x)) → KeepsFlag (all (map f l)).
Proof. intros Hf. apply keeps_all, Forall_map, Forall_forall. by intros. Qed.

Lemma same_all_map {X A} (f : X → Promise A) (l : list X) :
  (∀ x, SameResult (f x)) → SameResult (all (map f l)).
Proof. intros Hf. apply same_all, Forall_map, Forall_forall. by intros. Qed.

Lemma same_cli_log (msg : string) : SameResult (cli_log msg).
Proof. done. Qed.

Lemma emits_set_shouldNotDeploy (P : Call → Prop) (b : bool) :
  Emits P (set_shouldNotDeploy b).
Proof. intros s. exists []. by rewrite app_nil_r. Qed.

Lemma emits_cli_log (P : Call → Prop) (msg : string) :
  P (Cli_log msg) → Emits P (cli_log msg).
Proof. apply emits_perform. Qed.

Lemma keeps_cli_log (msg : string) : KeepsFlag (cli_log msg).
Proof. done. Qed.

(** Goals [Emits P p] and [KeepsFlag p] by the structure of [p]. *)
Ltac promise_step :=
  first
    [ apply emits_then | apply emits_catch | apply emits_all2
    | apply emits_resolve | apply emits_reject
    | apply emits_set_shouldNotDeploy
    | apply emits_cli_log | apply emits_perform
    | apply emits_all_map
    | apply keeps_then | apply keeps_catch | apply keeps_all2
    | apply keeps_resolve | apply keeps_reject
    | apply keeps_cli_log | apply keeps_perform | apply keeps_all_map
    | apply same_then | apply same_catch | apply same_all2
    | apply same_resolve | apply same_reject
    | apply same_cli_log | apply same_perform | apply same_all_map ].

Ltac promise_struct :=
  repeat first [ progress intros | promise_step | case_match | done ].

(** ** The object listing *)

Section listing_facts.

Local Open Scope nat_scope.

Lemma startsWith_app (p t : string) : JsString.startsWith p (p +:+ t) = true.
Proof.
  induction p as [|a p IH]; simpl; [done|].
  by rewrite eqb_ascii_refl, IH.
Qed.

Lemma startsWith_app_l (p s t : string) :
  JsString.startsWith p s = true → JsString.startsWith p (s +:+ t) = true.
Proof.
  revert s. induction p as [|a p IH]; intros [|b s]; simpl; try done.
  intros [-> Hp]%andb_true_iff. by rewrite IH.
Qed.

Lemma includes_unfold (p s : string) :
  JsString.includes p s =
  JsString.startsWith p s
  || match s with EmptyString => false | String _ s' => JsString.includes p s' end.
Proof. by destruct s. Qed.

Lemma includes_app_l (p s t : string) :
  JsString.includes p s = true → JsString.includes p (s +:+ t) = true.
Proof.
  induction s as [|b s IH].
  - rewrite includes_unfold. rewrite orb_false_r. intros Hp.
    destruct p; [|done]. by destruct t.
  - rewrite (includes_unfold p (String b s)).
    change (String b s +:+ t) with (String b (s +:+ t)).
    rewrite (includes_unfold p (String b (s +:+ t))).
    intros [Hp|Hp]%orb_true_iff; apply orb_true_iff.
    + left. by apply (startsWith_app_l p (String b s) t).
    + right. by apply IH.
Qed.

Lemma includes_app_r (p s t : string) :
  JsString.includes p t = true → JsString.includes p (s +:+ t) = true.
Proof.
  intros Hp. induction s as [|b s IH]; [done|].
  change (String b s +:+ t) with (String b (s +:+ t)).
  rewrite includes_unfold, IH. apply orb_true_r.
Qed.

Lemma includes_prefix (p t : string) : JsString.includes p (p +:+ t) = true.
Proof. rewrite includes_unfold, startsWith_app. done. Qed.

Lemma bucketMissingMessage_names (Bucket stackName : string) :
  JsString.includes Bucket (bucketMissingMessage Bucket stackName) = true
  ∧ JsString.includes stackName (bucketMissingMessage Bucket stackName) = true.
Proof.
  unfold bucketMissingMessage. cbn [JsString.join]. split.
  - apply includes_app_l. do 2 apply includes_app_r. apply includes_prefix.
  - do 2 apply includes_app_r. apply includes_app_l.
    do 2 apply includes_app_r. apply includes_prefix.
Qed.

End listing_facts.

(** C8. When the listing is rejected with a message that says the bucket
    does not exist, [getMostRecentObjects] is rejected with the
    [ServerlessError] whose message names the bucket and the CloudFormation
    stack; any other rejection of the listing is passed on as it is. *)
Theorem getMostRecentObjects_listing_rejected (this : Plugin) (s : Session)
    (reason : JsError) :
  request_S3_listObjectsV2 this (bucketName this)
    (getDeploymentPrefix this +:+ "/" +:+ service this +:+ "/" +:+ getStage this)
  = Rejected reason →
  ∃ e,
    (getMostRecentObjects this s).1 = Rejected e
    ∧ (JsString.includes "The specified bucket does not exist" (message reason) = true →
       e = ServerlessError (bucketMissingMessage (bucketName this) (getStackName this))
       ∧ JsString.includes (bucketName this) (message e) = true
       ∧ JsString.includes (getStackName this) (message e) = true)
    ∧ (JsString.includes "The specified bucket does not exist" (message reason) = false →
       e = reason).
Proof.
  intros Hlist. unfold getMostRecentObjects, then_, catch_, perform. cbv zeta.
  rewrite Hlist.
  destruct (JsString.includes _ (message reason)) eqn:Hinc; simpl.
  - eexists. split; [reflexivity|]. split; [|done]. intros _.
    destruct (bucketMissingMessage_names (bucketName this) (getStackName this))
      as [Hb Hs].
    by repeat split.
  - eexists. split; [reflexivity|]. split; [done|]. by intros _.
Qed.

Section generation_facts.

Local Open Scope nat_scope.

Lemma lastIndexOf_absent (c : ascii) (s : string) :
  JsString.count c s = 0 → JsString.lastIndexOf c s = (-1)%Z.
Proof.
  induction s as [|a s IH]; simpl; [done|].
  destruct (Ascii.eqb a c); [done|].
  intros H. by rewrite IH.
Qed.

Lemma lastIndexOf_last (c : ascii) (a b : string) :
  JsString.count c b = 0 →
  JsString.lastIndexOf c (a +:+ String c b) = Z.of_nat (String.length a).
Proof.
  intros Hb. induction a as [|x a IH]; simpl.
  - by rewrite lastIndexOf_absent, eqb_ascii_refl.
  - rewrite IH. case_match eqn:Hle; [lia|].
    apply Z.leb_gt in Hle. lia.
Qed.

Lemma substring_prefix (d r : string) :
  String.substring 0 (String.length d) (d +:+ r) = d.
Proof.
  induction d as [|x d IH]; simpl; [by destruct r|].
  by rewrite IH.
Qed.

Lemma length_append (a b : string) :
  String.length (a +:+ b) = String.length a + String.length b.
Proof. induction a as [|x a IH]; simpl; [done|]. by rewrite IH. Qed.

Lemma directoryOf_of_path (d file : string) :
  JsString.count "/" file = 0 → directoryOf (d +:+ "/" +:+ file) = d.
Proof.
  intros Hfile. unfold directoryOf, JsString.substring, JsString.clamp.
  change ("/" +:+ file) with (String "/" file).
  rewrite lastIndexOf_last, length_append by done.
  cbn [String.length]. rewrite Nat2Z.id.
  replace (Z.to_nat 0) with 0 by done.
  rewrite Nat.min_0_l.
  rewrite (Nat.min_l (String.length d)) by lia.
  rewrite Nat.min_0_l, Nat.max_0_l, Nat.sub_0_r.
  apply substring_prefix.
Qed.

Lemma directoryOf_no_slash (key : string) :
  JsString.count "/" key = 0 → directoryOf key = "".
Proof.
  intros Hkey. unfold directoryOf, JsString.substring, JsString.clamp.
  rewrite lastIndexOf_absent by done.
  replace (Z.to_nat 0) with 0 by done. replace (Z.to_nat (-1)) with 0 by done.
  rewrite Nat.min_0_l. simpl. by destruct key.
Qed.

(** [directoryOf] computes the key up to its last ['/']. *)
Lemma directoryOf_spec (key d : string) :
  directoryPrefix key d ↔ d = directoryOf key.
Proof.
  split.
  - intros [(file & -> & Hfile)|[Hkey ->]].
    + by rewrite directoryOf_of_path.
    + by rewrite directoryOf_no_slash.
  - intros ->. destruct (JsString.count "/" key) as [|n] eqn:Hn.
    + right. by rewrite directoryOf_no_slash.
    + left. destruct (split_at_last "/" key) as (a & b & -> & Hb & _); [lia|].
      exists b. split; [|done].
      change (String "/" b) with ("/" +:+ b).
      by rewrite (directoryOf_of_path a b).
Qed.

Lemma insert_desc_Permutation (x : S3.Object) (l : list S3.Object) :
  insert_desc x l ≡ₚ x :: l.
Proof.
  induction l as [|y l IH]; simpl; [done|].
  case_match; [done|]. by rewrite IH, Permutation_swap.
Qed.

Lemma orderBy_Key_desc_Permutation (l : list S3.Object) :
  orderBy_Key_desc l ≡ₚ l.
Proof.
  induction l as [|x l IH]; simpl; [done|].
  by rewrite insert_desc_Permutation, IH.
Qed.

Lemma insert_desc_Sorted (x : S3.Object) (l : list S3.Object) :
  Sorted keyDesc l → Sorted keyDesc (insert_desc x l).
Proof.
  induction 1 as [|y l Hl IH Hhd]; simpl.
  { by repeat constructor. }
  destruct (String.leb (S3.Key y) (S3.Key x)) eqn:Hle.
  - constructor; [by constructor|]. constructor.
    unfold keyDesc, String.le. by rewrite Hle.
  - constructor; [done|].
    assert (Hxy : keyDesc y x).
    { unfold keyDesc, String.le.
      destruct (String.leb_total (S3.Key y) (S3.Key x)) as [H'|H'];
        [congruence|by rewrite H']. }
    destruct Hhd as [|z l Hz]; simpl; [by constructor|].
    case_match; by constructor.
Qed.

Lemma orderBy_Key_desc_Sorted (l : list S3.Object) :
  Sorted keyDesc (orderBy_Key_desc l).
Proof.
  induction l as [|x l IH]; simpl; [constructor|].
  by apply insert_desc_Sorted.
Qed.

Lemma keyDesc_trans : Transitive keyDesc.
Proof. intros x y z Hxy Hyz. unfold keyDesc in *. by etrans. Qed.

(** The first object of the ordered listing holds the greatest key. *)
Lemma orderBy_Key_desc_first (l : list S3.Object) (first : S3.Object)
    (rest : list S3.Object) :
  orderBy_Key_desc l = first :: rest →
  first ∈ l ∧ ∀ o, o ∈ l → String.le (S3.Key o) (S3.Key first).
Proof.
  intros Hord.
  pose proof (orderBy_Key_desc_Permutation l) as Hperm.
  pose proof (orderBy_Key_desc_Sorted l) as Hsorted.
  rewrite Hord in Hperm, Hsorted.
  apply (@Sorted_StronglySorted _ _ keyDesc_trans) in Hsorted.
  apply StronglySorted_cons in Hsorted as [Hall _].
  split.
  - rewrite <- Hperm. by left.
  - intros o Ho. rewrite <- Hperm in Ho.
    apply elem_of_cons in Ho as [->|Ho]; [done|].
    rewrite Forall_forall in Hall. by apply Hall.
Qed.

End generation_facts.

(** C7. For a listing with objects, [getMostRecentObjects] resolves with
    exactly the objects (with their multiplicity) whose directory prefix is
    that of the greatest key, so all of them share one directory; for a
    listing without objects it resolves with the empty list. *)
Theorem getMostRecentObjects_latest_generation (this : Plugin) (s : Session)
    (result : S3.ListObjectsV2Output) :
  request_S3_listObjectsV2 this (bucketName this)
    (getDeploymentPrefix this +:+ "/" +:+ service this +:+ "/" +:+ getStage this)
  = Resolved result →
  ∃ mostRecentObjects,
    (getMostRecentObjects this s).1 = Resolved mostRecentObjects
    ∧ match S3.Contents result with
      | Some (o :: os) =>
          ∃ greatest directory,
            greatest ∈ o :: os
            ∧ (∀ obj, obj ∈ o :: os → String.le (S3.Key obj) (S3.Key greatest))
            ∧ directoryPrefix (S3.Key greatest) directory
            ∧ (∀ obj, obj ∈ mostRecentObjects ↔
                      obj ∈ o :: os ∧ directoryPrefix (S3.Key obj) directory)
            ∧ mostRecentObjects
              ≡ₚ filter (λ obj, directory = directoryOf (S3.Key obj)) (o :: os)
      | _ => mostRecentObjects = []
      end.
Proof.
  intros Hlist. unfold getMostRecentObjects, then_, catch_, perform. cbv zeta.
  rewrite Hlist. cbv beta iota.
  destruct (S3.Contents result) as [[|o os]|]; [by eexists..| |by eexists].
  remember (o :: os) as objects eqn:Hobjects.
  destruct (orderBy_Key_desc objects) as [|first rest] eqn:Hord.
  { pose proof (orderBy_Key_desc_Permutation objects) as Hperm.
    rewrite Hord in Hperm. apply Permutation_nil in Hperm. congruence. }
  eexists. split; [reflexivity|].
  destruct (orderBy_Key_desc_first _ _ _ Hord) as [Hin Hmax].
  assert (Hperm : first :: rest ≡ₚ objects).
  { rewrite <- Hord. apply orderBy_Key_desc_Permutation. }
  exists first, (directoryOf (S3.Key first)).
  split; [done|]. split; [done|].
  split; [by apply directoryOf_spec|]. split.
  - intros obj. rewrite Hperm, list_elem_of_filter, directoryOf_spec. tauto.
  - by rewrite Hperm.
Qed.

(** ** The scan of the functions' last-modified dates *)

Section scan_facts.

Lemma accessDeniedb_spec (this : Plugin) (funName : string) :
  accessDeniedb this funName = true ↔ accessDenied this funName.
Proof.
  unfold accessDeniedb, accessDenied, isForbidden. split.
  - destruct (request_Lambda_getFunction _ _) as [res|err]; [done|].
    destruct (providerError err) as [pe|] eqn:Hpe; [|done].
    intros Hcode%Z.eqb_eq. by exists err, pe.
  - intros (err & pe & -> & -> & ->). done.
Qed.

Lemma existsb_accessDenied (this : Plugin) (fs : list string) :
  existsb (accessDeniedb this) fs = true
  ↔ ∃ funName, funName ∈ fs ∧ accessDenied this funName.
Proof.
  rewrite existsb_exists. split.
  - intros (f & Hin & Hf). exists f.
    split; [by apply list_elem_of_In|by apply accessDeniedb_spec].
  - intros (f & Hin & Hf). exists f.
    split; [by apply list_elem_of_In|by apply accessDeniedb_spec].
Qed.

Lemma fold_earlier_Some (dates : list Z) (a : Z) :
  ∃ m, fold_left earlier dates (Some a) = Some m ∧ isMinimum m (a :: dates).
Proof.
  revert a. induction dates as [|d dates IH]; intros a; simpl.
  { exists a. split; [done|]. split; [by left|].
    intros d ->%list_elem_of_singleton. lia. }
  destruct (d <? a) eqn:Hlt.
  - apply Z.ltb_lt in Hlt. destruct (IH d) as (m & -> & Hin & Hmin).
    exists m. split; [done|]. split.
    + apply elem_of_cons in Hin as [->|Hin]; [right; by left|by do 2 right].
    + intros x [->|[->|Hx]%elem_of_cons]%elem_of_cons.
      * assert (m ≤ d) by (apply Hmin; by left). lia.
      * apply Hmin. by left.
      * apply Hmin. by right.
  - apply Z.ltb_ge in Hlt. destruct (IH a) as (m & -> & Hin & Hmin).
    exists m. split; [done|]. split.
    + apply elem_of_cons in Hin as [->|Hin]; [by left|by do 2 right].
    + intros x [->|[->|Hx]%elem_of_cons]%elem_of_cons.
      * apply Hmin. by left.
      * assert (m ≤ a) by (apply Hmin; by left). lia.
      * apply Hmin. by right.
Qed.

Lemma fold_earlier_minimum (dates : list Z) :
  match dates with
  | [] => fold_left earlier dates None = None
  | _ :: _ => ∃ m, fold_left earlier dates None = Some m ∧ isMinimum m dates
  end.
Proof. destruct dates as [|d dates]; [done|]. apply fold_earlier_Some. Qed.

Lemma all_getFunctionResult (this : Plugin) (fs : list string) (s : Session) :
  all (map (getFunctionResult this) fs) s =
  (Resolved (map (λ f, (functionDate this f, accessDeniedb this f)) fs),
   {| shouldNotDeploy := shouldNotDeploy s;
      calls := calls s ++ map (getFunctionCall this) fs |}).
Proof.
  revert s. induction fs as [|f fs IH]; intros s.
  { simpl. rewrite app_nil_r. by destruct s. }
  cbn [map all].
  unfold getFunctionResult at 1. unfold catch_, then_, perform, resolve.
  unfold functionDate at 1, accessDeniedb at 1, getFunctionCall at 1.
  destruct (request_Lambda_getFunction this _) as [res|err];
    rewrite IH; simpl; by rewrite <- app_assoc.
Qed.

End scan_facts.

(** C5. The scan of the functions' dates always resolves: it issues one
    [getFunction] request per function, takes the epoch for every function
    whose request fails, logs the warning exactly once when some request
    fails with status 403 and not at all otherwise, and resolves with the
    minimum of the dates, or with [null] when there is no function. *)
Theorem getFunctionsEarliestLastModifiedDate_scan (this : Plugin) (s : Session) :
  ∃ earliest warnings,
    getFunctionsEarliestLastModifiedDate this s =
    (Resolved earliest,
     {| shouldNotDeploy := shouldNotDeploy s;
        calls := calls s ++ map (getFunctionCall this) (getAllFunctions this)
                         ++ warnings |})
    ∧ ((∃ funName, funName ∈ getAllFunctions this ∧ accessDenied this funName) →
       warnings = [Cli_log notAuthorizedWarning])
    ∧ (¬ (∃ funName, funName ∈ getAllFunctions this ∧ accessDenied this funName) →
       warnings = [])
    ∧ match getAllFunctions this with
      | [] => earliest = None
      | _ :: _ =>
          ∃ m, earliest = Some m
               ∧ isMinimum m (map (functionDate this) (getAllFunctions this))
      end.
Proof.
  unfold getFunctionsEarliestLastModifiedDate, then_.
  rewrite all_getFunctionResult.
  set (fs := getAllFunctions this).
  rewrite !map_map. cbn [fst snd].
  assert (Hex : existsb snd (map (λ f, (functionDate this f, accessDeniedb this f)) fs)
                = existsb (accessDeniedb this) fs).
  { induction fs as [|f fs' IH]; simpl; [done|]. by rewrite IH. }
  rewrite Hex. clear Hex.
  pose proof (existsb_accessDenied this fs) as Hden.
  pose proof (fold_earlier_minimum (map (functionDate this) fs)) as Hmin.
  destruct (existsb (accessDeniedb this) fs) eqn:Hb.
  - exists (fold_left earlier (map (functionDate this) fs) None),
      [Cli_log notAuthorizedWarning].
    split; [by unfold cli_log, perform, resolve, record; simpl; rewrite <- app_assoc|].
    split; [done|]. split; [intros Hno; destruct Hno; by apply Hden|].
    destruct fs; [done|]. exact Hmin.
  - exists (fold_left earlier (map (functionDate this) fs) None), [].
    split; [by unfold resolve; simpl; rewrite app_nil_r|].
    split; [intros Hyes%Hden; done|]. split; [done|].
    destruct fs; [done|]. exact Hmin.
Qed.

(** ** The comparison of the hash lists *)

Section hash_facts.

Lemma isEqual_eq (xs ys : list string) : isEqual xs ys = true ↔ xs = ys.
Proof.
  revert ys. induction xs as [|x xs IH]; intros [|y ys]; simpl; try done.
  rewrite andb_true_iff, String.eqb_eq, IH. split.
  - by intros [-> ->].
  - by intros [= -> ->].
Qed.

Lemma sort_Permutation (xs : list string) : sort xs ≡ₚ xs.
Proof. apply merge_sort_Permutation. Qed.

Lemma sort_Sorted (xs : list string) : Sorted String.le (sort xs).
Proof. apply (Sorted_merge_sort String.le). Qed.

Lemma areHashesEqual_Permutation (remoteHashes localHashes : list string) :
  areHashesEqual remoteHashes localHashes = true ↔ remoteHashes ≡ₚ localHashes.
Proof.
  unfold areHashesEqual. rewrite isEqual_eq. split.
  - intros Heq. by rewrite <- (sort_Permutation remoteHashes), Heq, sort_Permutation.
  - intros Hperm. apply (Sorted_unique String.le); [apply sort_Sorted..|].
    by rewrite !sort_Permutation.
Qed.

End hash_facts.

(** C3. The hash gate passes exactly when the remote hash list is a
    permutation of the local one, that is, when every hash occurs as often
    remotely as locally; so against two local artifacts with one hash [h]
    (and a different template hash) it passes only for remote lists that
    hold [h] exactly twice. *)
Theorem areHashesEqual_multiset (remoteHashes localHashes : list string) :
  (areHashesEqual remoteHashes localHashes = true ↔ remoteHashes ≡ₚ localHashes)
  ∧ (areHashesEqual remoteHashes localHashes = true ↔
     ∀ h, count_occ string_dec remoteHashes h = count_occ string_dec localHashes h)
  ∧ (∀ h t, h ≠ t →
            areHashesEqual remoteHashes [h; h; t] = true →
            count_occ string_dec remoteHashes h = 2%nat).
Proof.
  split; [apply areHashesEqual_Permutation|]. split.
  - rewrite areHashesEqual_Permutation. apply Permutation_count_occ.
  - intros h t Hne Heq. apply areHashesEqual_Permutation in Heq.
    rewrite (Permutation_count_occ string_dec) in Heq. rewrite Heq.
    simpl. destruct (string_dec h h); [|done].
    by destruct (string_dec t h) as [->|].
Qed.

(** ** The necessity evaluation *)

Section necessity_facts.

Lemma hashFile_run (this : Plugin) (zipFilePath : string) (s : Session) :
  (hashFile this zipFilePath s).1 = fileHash this zipFilePath
  ∧ shouldNotDeploy (hashFile this zipFilePath s).2 = shouldNotDeploy s.
Proof.
  unfold hashFile, fileHash, then_, perform.
  by destruct (readFile this zipFilePath).
Qed.

Lemma all_hashFile (this : Plugin) (paths : list string) (s : Session) :
  (all (map (hashFile this) paths) s).1 = settleAll (map (fileHash this) paths)
  ∧ shouldNotDeploy (all (map (hashFile this) paths) s).2 = shouldNotDeploy s.
Proof.
  revert s. induction paths as [|path paths IH]; intros s; [done|].
  cbn [map all settleAll].
  destruct (hashFile_run this path s) as [Hr Hf].
  destruct (hashFile this path s) as [r s1]. simpl in Hr, Hf. subst r.
  destruct (IH s1) as [Hrs Hfs].
  destruct (all (map (hashFile this) paths) s1) as [rs s2]. simpl in Hrs, Hfs.
  subst rs. simpl. split; [done|congruence].
Qed.

Lemma changedAfterDeploy_GateA (objects : list S3.HeadObjectOutput)
    (funcLastModifiedDate : option Z) :
  existsb (modifiedAfter funcLastModifiedDate) objects = false
  ↔ GateA objects funcLastModifiedDate.
Proof.
  unfold GateA. split.
  - intros Hnone object t Hin Ht Hlt.
    assert (Hsome : existsb (modifiedAfter funcLastModifiedDate) objects = true);
      [|congruence].
    apply existsb_exists. exists object. split; [by apply list_elem_of_In|].
    unfold modifiedAfter. rewrite Ht. by apply Z.ltb_lt.
  - intros Hgate. apply not_true_is_false.
    intros (object & Hin & Hafter)%existsb_exists.
    unfold modifiedAfter in Hafter.
    destruct (S3.LastModified object) as [t|] eqn:Ht; [|done].
    apply Z.ltb_lt in Hafter.
    by apply (Hgate object t); [apply list_elem_of_In|..].
Qed.

(** The flag [checkIfDeploymentIsNecessary] leaves. *)
Lemma checkIfDeploymentIsNecessary_flag (this : Plugin)
    (objects : list S3.HeadObjectOutput) (funcLastModifiedDate : option Z)
    (s : Session) :
  shouldNotDeploy (checkIfDeploymentIsNecessary this objects funcLastModifiedDate s).2 =
  match objects, settleAll (map (fileHash this) (zipFilePathsOf this).2) with
  | _ :: _, Resolved zipFileHashes =>
      if negb (existsb (modifiedAfter funcLastModifiedDate) objects)
         && areHashesEqual (map remoteHash objects)
              (zipFileHashes ++ [sha256_base64 this (normCfTemplateJson this)])
      then true
      else shouldNotDeploy s
  | _, _ => shouldNotDeploy s
  end.
Proof.
  unfold checkIfDeploymentIsNecessary.
  destruct objects as [|o os]; [done|].
  remember (o :: os) as objects eqn:Hobjects.
  destruct (zipFilePathsOf this) as [zipFiles zipFilePaths]. cbn [snd].
  unfold then_ at 1. unfold perform at 1.
  unfold then_ at 1. unfold cli_log at 1, perform at 1.
  unfold then_ at 1. unfold cli_log at 1, perform at 1.
  unfold then_ at 1. unfold cli_log at 1, perform at 1.
  unfold then_ at 1.
  match goal with
  | |- context [all (map (hashFile this) zipFilePaths) ?s0] =>
      destruct (all_hashFile this zipFilePaths s0) as [Hr Hf];
      destruct (all (map (hashFile this) zipFilePaths) s0) as [r s1]
  end.
  simpl in Hr, Hf. subst r.
  destruct (settleAll _) as [zipFileHashes|reason]; [|done].
  unfold then_, cli_log, perform, set_shouldNotDeploy, resolve, record.
  cbv zeta.
  destruct (existsb _ objects); destruct (areHashesEqual _ _); simpl; done.
Qed.

(** When the flag is set, in terms of the two gates. *)
Lemma skip_iff_gates (this : Plugin)
    (objects : list S3.HeadObjectOutput) (funcLastModifiedDate : option Z)
    (s : Session) :
  shouldNotDeploy s = false →
  shouldNotDeploy
    (checkIfDeploymentIsNecessary this objects funcLastModifiedDate s).2 = true
  ↔ objects ≠ []
    ∧ ∃ localHashes,
        LocalHashes this localHashes
        ∧ GateA objects funcLastModifiedDate
        ∧ GateB objects localHashes.
Proof.
  intros Hs. rewrite checkIfDeploymentIsNecessary_flag, Hs.
  unfold LocalHashes, GateB.
  destruct objects as [|o os].
  { split; [done|]. by intros [? _]. }
  remember (o :: os) as objects eqn:Hobjects.
  setoid_rewrite <- changedAfterDeploy_GateA.
  destruct (settleAll _) as [zipFileHashes|reason].
  - destruct (existsb _ objects); simpl.
    + split; [done|]. by intros (_ & hs & _ & ? & _).
    + split.
      * case_match eqn:Heq; [|done]. intros _.
        apply areHashesEqual_Permutation in Heq.
        split; [by subst|]. eexists. split; [by eexists|]. done.
      * intros (_ & hs & (zs & [= <-] & ->) & _ & Hperm).
        apply areHashesEqual_Permutation in Hperm. by rewrite Hperm.
  - split; [done|]. by intros (_ & hs & (zs & ? & _) & _).
Qed.

Lemma same_getMostRecentObjects (this : Plugin) :
  SameResult (getMostRecentObjects this) ∧ KeepsFlag (getMostRecentObjects this).
Proof. unfold getMostRecentObjects. split; promise_struct. Qed.

Lemma same_getObjectMetadata (this : Plugin) (objs : list S3.Object) :
  SameResult (getObjectMetadata this objs)
  ∧ KeepsFlag (getObjectMetadata this objs).
Proof. unfold getObjectMetadata. split; promise_struct. Qed.

Lemma same_getFunctionsEarliestLastModifiedDate (this : Plugin) :
  SameResult (getFunctionsEarliestLastModifiedDate this)
  ∧ KeepsFlag (getFunctionsEarliestLastModifiedDate this).
Proof.
  unfold getFunctionsEarliestLastModifiedDate.
  split; promise_struct; unfold getFunctionResult; promise_struct.
Qed.

(** The flag after the whole evaluation, in terms of what the three fetches
    settle to. *)
Lemma evaluation_skip_iff (this : Plugin) (s : Session) :
  shouldNotDeploy s = false →
  shouldNotDeploy (evaluation this s).2 = true
  ↔ ∃ objs objects earliest,
      (getMostRecentObjects this newSession).1 = Resolved objs
      ∧ (getObjectMetadata this objs newSession).1 = Resolved objects
      ∧ (getFunctionsEarliestLastModifiedDate this newSession).1 = Resolved earliest
      ∧ objects ≠ []
      ∧ ∃ localHashes,
          LocalHashes this localHashes
          ∧ GateA objects earliest
          ∧ GateB objects localHashes.
Proof.
  intros Hs. unfold evaluation, then_, all2.
  destruct (same_getMostRecentObjects this) as [Hsame1 Hkeep1].
  specialize (Hsame1 s newSession). specialize (Hkeep1 s).
  destruct (getMostRecentObjects this s) as [[objs|reason] s1]; simpl in *.
  2: { rewrite Hkeep1, Hs. split; [done|].
       intros (objs & ? & ? & Hobjs & _). congruence. }
  destruct (same_getObjectMetadata this objs) as [Hsame2 Hkeep2].
  specialize (Hsame2 s1 newSession). specialize (Hkeep2 s1).
  destruct (getObjectMetadata this objs s1) as [r2 s2]; simpl in *.
  destruct (same_getFunctionsEarliestLastModifiedDate this) as [Hsame3 Hkeep3].
  specialize (Hsame3 s2 newSession). specialize (Hkeep3 s2).
  destruct (getFunctionsEarliestLastModifiedDate this s2) as [r3 s3]; simpl in *.
  assert (Hs3 : shouldNotDeploy s3 = false) by congruence.
  destruct r2 as [objects|reason], r3 as [earliest|reason']; simpl.
  - rewrite skip_iff_gates by done. split.
    + intros (Hne & Hgates). by exists objs, objects, earliest.
    + intros (objs' & objects' & earliest' & Hobjs & Hobjects & Hearliest & Hrest).
      assert (objs' = objs) as -> by congruence.
      assert (objects' = objects) as -> by congruence.
      assert (earliest' = earliest) as -> by congruence.
      done.
  - rewrite Hs3. split; [done|].
    intros (? & ? & ? & _ & _ & Hearliest & _). congruence.
  - rewrite Hs3. split; [done|].
    intros (objs' & ? & ? & Hobjs & Hobjects & _).
    assert (objs' = objs) as -> by congruence. congruence.
  - rewrite Hs3. split; [done|].
    intros (objs' & ? & ? & Hobjs & Hobjects & _).
    assert (objs' = objs) as -> by congruence. congruence.
Qed.

End necessity_facts.

(** C10. An object whose metadata has no [filesha256], or an empty one,
    contributes the empty string as its remote hash; the hash gate, and so
    the skip verdict, can then only pass when the empty string is among the
    local hashes. *)
Theorem remoteHash_missing_filesha256 (object : S3.HeadObjectOutput) :
  S3.Metadata object !! "filesha256" = None
  ∨ S3.Metadata object !! "filesha256" = Some "" →
  remoteHash object = ""
  ∧ (∀ objects localHashes,
       object ∈ objects →
       areHashesEqual (map remoteHash objects) localHashes = true →
       "" ∈ localHashes)
  ∧ (∀ this objects funcLastModifiedDate s,
       object ∈ objects →
       shouldNotDeploy s = false →
       shouldNotDeploy
         (checkIfDeploymentIsNecessary this objects funcLastModifiedDate s).2 = true →
       ∃ localHashes, LocalHashes this localHashes ∧ "" ∈ localHashes).
Proof.
  intros Hmeta.
  assert (Hhash : remoteHash object = "").
  { unfold remoteHash. by destruct Hmeta as [-> | ->]. }
  assert (Hgate : ∀ objects localHashes,
             object ∈ objects →
             areHashesEqual (map remoteHash objects) localHashes = true →
             "" ∈ localHashes).
  { intros objects localHashes Hin Heq%areHashesEqual_Permutation.
    rewrite <- Heq, <- Hhash. apply list_elem_of_In, in_map.
    by apply list_elem_of_In. }
  split; [done|]. split; [done|].
  intros this objects d s Hin Hs Hskip.
  apply skip_iff_gates in Hskip
    as (_ & localHashes & Hlocal & _ & Hperm); [|done].
  exists localHashes. split; [done|].
  apply (Hgate objects); [done|]. by apply areHashesEqual_Permutation.
Qed.

(** ** The reconciler *)

Section reconciler_facts.


Lemma keeps_fixLogGroupSubscriptionFilters (this : Plugin) (params : FixParams) :
  KeepsFlag (fixLogGroupSubscriptionFilters this params).
Proof. unfold fixLogGroupSubscriptionFilters. promise_struct. Qed.

Lemma eventPromises_Forall (Q : Promise FixResult → Prop) (this : Plugin)
    (account : AccountInfo) (region functionName : string)
    (functionObj : FunctionObj) (serial : Z) (evs : list Event) :
  Q (resolve ReturnedUndefined) →
  (∀ params, Q (fixLogGroupSubscriptionFilters this params)) →
  Forall Q (eventPromises this account region functionName functionObj serial evs).
Proof.
  intros Hskip Hfix. revert serial.
  induction evs as [|event evs IH]; intros serial; simpl; [constructor|].
  destruct (logGroupNameOf event); constructor; auto.
Qed.

(** The promise made for the [i]-th event, when it binds a log group: the
    fix of that log group (newlines removed), numbered by the bindings
    declared up to and including it. *)
Lemma eventPromises_binding (this : Plugin) (account : AccountInfo)
    (region functionName : string) (functionObj : FunctionObj) (serial : Z)
    (evs : list Event) (i : nat) (event : Event) (logGroupName : string) :
  evs !! i = Some event →
  logGroupNameOf event = Some logGroupName →
  eventPromises this account region functionName functionObj serial evs !! i
  = Some (fixLogGroupSubscriptionFilters this
            {| p_accountId := accountId account;
               p_logGroupName := logGroupName;
               p_functionName := functionName;
               p_functionObj := functionObj;
               p_region := region;
               p_partition := partition account;
               p_logSubscriptionSerialNumber :=
                 serial + bindings (take i evs) + 1 |}).
Proof.
  revert serial i. induction evs as [|e evs IH]; intros serial [|i] Hi Hlg;
    simplify_eq/=.
  - rewrite Hlg. simpl. unfold bindings. simpl. by rewrite Z.add_0_r.
  - unfold bindings. rewrite filter_cons. fold (bindings (take i evs)).
    destruct (logGroupNameOf e) as [lg|] eqn:He; simpl.
    + rewrite (IH _ _ Hi Hlg). do 3 f_equal. unfold bindings. lia.
    + by rewrite (IH _ _ Hi Hlg).
Qed.


Lemma keeps_reconciler_events (this : Plugin) (account : AccountInfo)
    (functionName : string) :
  KeepsFlag
    (match events (getFunction this functionName) with
     | None => resolve []
     | Some evs =>
         all (eventPromises this account (getRegion this) functionName
                (getFunction this functionName) 0 evs)
     end).
Proof.
  destruct (events _) as [evs|]; [|apply keeps_resolve].
  apply keeps_all, eventPromises_Forall.
  - apply keeps_resolve.
  - apply keeps_fixLogGroupSubscriptionFilters.
Qed.

Lemma keeps_reconciler (this : Plugin) :
  KeepsFlag (checkLogGroupSubscriptionFilterResourceLimitExceeded this).
Proof.
  unfold checkLogGroupSubscriptionFilterResourceLimitExceeded. cbv zeta.
  apply keeps_then; [apply keeps_perform|]. intros account.
  apply keeps_all_map. intros functionName.
  apply keeps_reconciler_events.
Qed.


End reconciler_facts.

(** C6. For one function/event pair, [fixLogGroupSubscriptionFilters]
    describes the log group's filters and then issues no delete when the
    describe call fails, when there is no filter, or when the first filter's
    destination ARN and derived logical id are the ones this deployment
    produces; in every other case it issues exactly one delete, for this log
    group and that filter's name. *)
Theorem fixLogGroupSubscriptionFilters_deletes (this : Plugin)
    (params : FixParams) (s : Session) :
  let logGroupName := p_logGroupName params in
  let expectedArn :=
    "arn:" +:+ p_partition params +:+ ":lambda:" +:+ p_region params +:+ ":"
    +:+ p_accountId params +:+ ":function:" +:+ name (p_functionObj params) in
  let expectedLogicalId :=
    getCloudWatchLogLogicalId this (p_functionName params)
      (p_logSubscriptionSerialNumber params) in
  ∃ deletes,
    calls (fixLogGroupSubscriptionFilters this params s).2
    = calls s ++ CloudWatchLogs_describeSubscriptionFilters logGroupName :: deletes
    ∧ match request_describeSubscriptionFilters this logGroupName with
      | Rejected _ => deletes = []
      | Resolved response =>
          match CloudWatchLogs.subscriptionFilters response with
          | [] => deletes = []
          | subscriptionFilter :: _ =>
              let filterName := CloudWatchLogs.filterName subscriptionFilter in
              (CloudWatchLogs.destinationArn subscriptionFilter = expectedArn
               ∧ getLogicalIdFromFilterName filterName = Some expectedLogicalId →
               deletes = [])
              ∧ (¬ (CloudWatchLogs.destinationArn subscriptionFilter = expectedArn
                    ∧ getLogicalIdFromFilterName filterName = Some expectedLogicalId) →
                 deletes =
                 [CloudWatchLogs_deleteSubscriptionFilter logGroupName filterName])
          end
      end.
Proof.
  intros logGroupName expectedArn expectedLogicalId.
  unfold fixLogGroupSubscriptionFilters, catch_, then_, perform, resolve.
  cbv zeta. fold logGroupName.
  change (newDestinationArnOf params) with expectedArn.
  fold expectedLogicalId.
  destruct (request_describeSubscriptionFilters this logGroupName)
    as [response|reason]; [|by exists []].
  destruct (CloudWatchLogs.subscriptionFilters response)
    as [|subscriptionFilter filters]; [by exists []|].
  destruct (String.eqb_spec
              (CloudWatchLogs.destinationArn subscriptionFilter) expectedArn)
    as [Harn|Harn];
    [destruct (decide (getLogicalIdFromFilterName
                         (CloudWatchLogs.filterName subscriptionFilter)
                       = Some expectedLogicalId)) as [Hid|Hid]|].
  - rewrite bool_decide_eq_true_2 by done. exists []. simpl.
    split; [done|]. split; [done|]. intros Hno. by destruct Hno.
  - rewrite bool_decide_eq_false_2 by done. simpl.
    exists [CloudWatchLogs_deleteSubscriptionFilter logGroupName
              (CloudWatchLogs.filterName subscriptionFilter)].
    split; [|split; [by intros [_ ?]|by intros _]].
    destruct (request_deleteSubscriptionFilter this _ _); simpl;
      by rewrite <- app_assoc.
  - simpl.
    exists [CloudWatchLogs_deleteSubscriptionFilter logGroupName
              (CloudWatchLogs.filterName subscriptionFilter)].
    split; [|split; [by intros [? _]|by intros _]].
    destruct (request_deleteSubscriptionFilter this _ _); simpl;
      by rewrite <- app_assoc.
Qed.

(** ** The whole check *)

Section check_facts.







(** [checkForChanges], step by step. *)
Lemma checkForChanges_run (this : Plugin) (s : Session) :
  checkForChanges this s =
  let s0 := {| shouldNotDeploy := false; calls := calls s |} in
  if force this then
    match checkLogGroupSubscriptionFilterResourceLimitExceeded this s0 with
    | (Resolved _, s1) => (Resolved tt, s1)
    | (Rejected reason, s1) => (Rejected reason, s1)
    end
  else
    match evaluation this s0 with
    | (Resolved _, s1) =>
        if shouldNotDeploy s1 then (Resolved tt, s1)
        else
          match checkLogGroupSubscriptionFilterResourceLimitExceeded this s1 with
          | (Resolved _, s2) => (Resolved tt, s2)
          | (Rejected reason, s2) => (Rejected reason, s2)
          end
    | (Rejected reason, s1) => (Rejected reason, s1)
    end.
Proof.
  unfold checkForChanges.
  unfold then_ at 1. unfold set_shouldNotDeploy at 1. cbv zeta.
  destruct (force this); [done|].
  unfold evaluation, then_.
  destruct (getMostRecentObjects this _) as [[objs|reason] s1]; [|done].
  destruct (all2 _ _ s1) as [[both|reason] s2]; [|done].
  destruct (checkIfDeploymentIsNecessary this _ _ s2) as [[v|reason] s3]; [|done].
  by destruct (shouldNotDeploy s3).
Qed.

End check_facts.


(** ** The sample service, run *)

Example sample_latest_generation :
  (getMostRecentObjects listedPlugin newSession).1
  = Resolved
      [ {| S3.Key := "serverless/service/dev/1700000000000-2023-11-14T22:13:20.000Z/service.zip";
           S3.ETag := "e3" |};
        {| S3.Key := "serverless/service/dev/1700000000000-2023-11-14T22:13:20.000Z/compiled-cloudformation-template.json";
           S3.ETag := "e2" |} ].
Proof. vm_compute. reflexivity. Qed.

Example sample_unchanged_is_skipped :
  shouldNotDeploy
    (checkIfDeploymentIsNecessary quietPlugin unchangedObjects (Some 2000)
       newSession).2 = true.
Proof. vm_compute. reflexivity. Qed.

Example sample_drift_is_deployed :
  shouldNotDeploy
    (checkIfDeploymentIsNecessary quietPlugin unchangedObjects (Some 999)
       newSession).2 = false.
Proof. vm_compute. reflexivity. Qed.

Example sample_count_sensitive :
  areHashesEqual ["h"; "t"] ["h"; "h"; "t"] = false
  ∧ areHashesEqual ["h"; "t"; "h"] ["h"; "h"; "t"] = true.
Proof. vm_compute. done. Qed.

Example sample_no_hyphen :
  getLogicalIdFromFilterName "nohyphen" = None.
Proof. reflexivity. Qed.

(** The trailing [.catch(() => undefined)] covers the whole chain:
    [fixLogGroupSubscriptionFilters] never rejects. *)
Lemma fixLogGroupSubscriptionFilters_never_rejects (this : Plugin)
    (params : FixParams) (s : Session) :
  ∃ v, (fixLogGroupSubscriptionFilters this params s).1 = Resolved v.
Proof.
  unfold fixLogGroupSubscriptionFilters, catch_, then_, perform, resolve.
  cbv zeta.
  destruct (request_describeSubscriptionFilters this _) as [response|reason];
    [|by eexists].
  destruct (CloudWatchLogs.subscriptionFilters response) as [|f filters];
    [by eexists|].
  destruct (_ && _); [by eexists|].
  destruct (request_deleteSubscriptionFilter this _ _); by eexists.
Qed.

(** C2 (the code departs from the claim). On the sample service with a
    stale filter whose deletion the provider rejects,
    [fixLogGroupSubscriptionFilters] issues the delete, drops the rejection
    and resolves with [undefined]; the forced [checkForChanges] around it
    resolves as well, so the rejection neither propagates nor aborts the
    check. *)
Theorem deleteSubscriptionFilter_rejection_swallowed :
  fixLogGroupSubscriptionFilters deleteDeniedPlugin sampleFixParams newSession
  = (Resolved ReturnedUndefined,
     {| shouldNotDeploy := false;
        calls :=
          [ CloudWatchLogs_describeSubscriptionFilters "/aws/lambda/source";
            CloudWatchLogs_deleteSubscriptionFilter "/aws/lambda/source"
              "service-dev-OldLogsSubscriptionFilterCloudWatchLog1-AB12CD" ] |})
  ∧ request_deleteSubscriptionFilter deleteDeniedPlugin "/aws/lambda/source"
      "service-dev-OldLogsSubscriptionFilterCloudWatchLog1-AB12CD"
    = deleteDenied
  ∧ checkForChanges deleteDeniedPlugin newSession
    = (Resolved tt,
       {| shouldNotDeploy := false;
          calls :=
            [ Provider_getAccountInfo;
              CloudWatchLogs_describeSubscriptionFilters "/aws/lambda/source";
              CloudWatchLogs_deleteSubscriptionFilter "/aws/lambda/source"
                "service-dev-OldLogsSubscriptionFilterCloudWatchLog1-AB12CD" ] |}).
Proof. vm_compute. done. Qed.

(** ** The statements on the sample service *)

Lemma areHashesEqual_multiset_witness :
  count_occ string_dec ["t"; "h"; "h"] "h" = 2%nat.
Proof.
  apply (proj2 (proj2 (areHashesEqual_multiset ["t"; "h"; "h"] ["h"; "h"; "t"]))
           "h" "t").
  - discriminate.
  - vm_compute. reflexivity.
Defined.


Lemma getFunctionsEarliestLastModifiedDate_scan_witness :
  ∃ earliest warnings,
    getFunctionsEarliestLastModifiedDate forbiddenPlugin newSession
    = (Resolved earliest,
       {| shouldNotDeploy := false;
          calls := [Lambda_getFunction "service-dev-basic"] ++ warnings |})
    ∧ warnings = [Cli_log notAuthorizedWarning].
Proof.
  destruct (getFunctionsEarliestLastModifiedDate_scan forbiddenPlugin newSession)
    as (earliest & warnings & Hrun & Hdenied & _).
  exists earliest, warnings. split; [exact Hrun|].
  apply Hdenied. exists "basic". split; [by left|].
  eexists _, _. repeat split; reflexivity.
Defined.

Lemma fixLogGroupSubscriptionFilters_deletes_witness :
  ∃ deletes,
    calls (fixLogGroupSubscriptionFilters deleteDeniedPlugin sampleFixParams
             newSession).2
    = CloudWatchLogs_describeSubscriptionFilters "/aws/lambda/source" :: deletes
    ∧ deletes =
      [ CloudWatchLogs_deleteSubscriptionFilter "/aws/lambda/source"
          "service-dev-OldLogsSubscriptionFilterCloudWatchLog1-AB12CD" ].
Proof.
  destruct (fixLogGroupSubscriptionFilters_deletes deleteDeniedPlugin
              sampleFixParams newSession) as (deletes & Hcalls & _ & Hstale).
  exists deletes. split; [exact Hcalls|].
  apply Hstale. intros [Harn _]. vm_compute in Harn. discriminate Harn.
Defined.

Lemma getMostRecentObjects_latest_generation_witness :
  ∃ mostRecentObjects greatest,
    (getMostRecentObjects listedPlugin newSession).1 = Resolved mostRecentObjects
    ∧ greatest ∈ sampleListing
    ∧ ∀ obj, obj ∈ mostRecentObjects →
             directoryOf (S3.Key obj) = directoryOf (S3.Key greatest).
Proof.
  destruct (getMostRecentObjects_latest_generation listedPlugin newSession
              {| S3.Contents := Some sampleListing |} eq_refl)
    as (l & Hrun & greatest & directory & Hin & _ & Hdir & Hmem & _).
  exists l, greatest. split; [exact Hrun|]. split; [exact Hin|].
  intros obj Hobj. apply Hmem in Hobj as [_ Hobj].
  apply directoryOf_spec in Hobj, Hdir. congruence.
Defined.

Lemma getMostRecentObjects_listing_rejected_witness :
  ∃ e,
    (getMostRecentObjects bucketGonePlugin newSession).1 = Rejected e
    ∧ JsString.includes "deployment-bucket" (message e) = true
    ∧ JsString.includes "service-dev" (message e) = true.
Proof.
  destruct (getMostRecentObjects_listing_rejected bucketGonePlugin newSession
              {| message := "The specified bucket does not exist";
                 providerError := Some {| statusCode := 404 |} |} eq_refl)
    as (e & Hrun & Hgone & _).
  exists e. split; [exact Hrun|].
  destruct Hgone as (_ & Hbucket & Hstack); [vm_compute; reflexivity|].
  split; [exact Hbucket|exact Hstack].
Defined.

Lemma remoteHash_missing_filesha256_witness :
  remoteHash unhashedObject = ""
  ∧ ∀ localHashes,
      areHashesEqual (map remoteHash [unhashedObject]) localHashes = true →
      "" ∈ localHashes.
Proof.
  destruct (remoteHash_missing_filesha256 unhashedObject) as (Hhash & Hgate & _).
  { left. reflexivity. }
  split; [exact Hhash|].
  intros localHashes. apply Hgate. by left.
Defined.

(** * Further properties of the module *)

(** ** Fetching the object metadata *)

Section metadata_facts.

Lemma settleAll_Resolved {A} (rs : list (Settled A)) (l : list A) :
  settleAll rs = Resolved l ↔ rs = map Resolved l.
Proof.
  revert l. induction rs as [|r rs IH]; intros l; simpl.
  { split; [by intros [= <-]|]. by destruct l. }
  destruct r as [a|reason].
  - destruct (settleAll rs) as [l'|reason] eqn:Hrs.
    + split.
      * intros [= <-]. simpl. f_equal. by apply IH.
      * destruct l as [|a' l]; [done|]. intros [= -> Hl]. f_equal. f_equal.
        apply IH in Hl. congruence.
    + split; [done|]. destruct l as [|a' l]; [done|]. intros [= -> Hl].
      apply IH in Hl. congruence.
  - split; [done|]. by destruct l.
Qed.

Lemma settleAll_Rejected {A} (rs : list (Settled A)) (reason : JsError) :
  settleAll rs = Rejected reason → Rejected reason ∈ rs.
Proof.
  induction rs as [|r rs IH]; simpl; [done|].
  destruct r as [a|reason'].
  - destruct (settleAll rs) as [l|reason'']; [done|].
    intros [= ->]. right. by apply IH.
  - intros [= ->]. by left.
Qed.

Lemma all_perform {X A} (c : X → Call) (answer : X → Settled A) (l : list X)
    (s : Session) :
  all (map (λ x, perform (c x) (answer x)) l) s =
  (settleAll (map answer l),
   {| shouldNotDeploy := shouldNotDeploy s; calls := calls s ++ map c l |}).
Proof.
  revert s. induction l as [|x l IH]; intros s.
  { simpl. rewrite app_nil_r. by destruct s. }
  cbn [map all settleAll]. unfold perform at 1. rewrite IH. simpl.
  rewrite <- app_assoc.
  by destruct (answer x), (settleAll (map answer l)).
Qed.

End metadata_facts.

(** X1. [getObjectMetadata] issues one [headObject] request per object, in
    the order of the list and all of them whatever the answers, and leaves
    the flag alone. It resolves exactly when every request does, with the
    answers in order; otherwise it rejects with the reason of one of the
    rejected requests. For no objects it issues nothing. *)
Theorem getObjectMetadata_run (this : Plugin) (objects : list S3.Object)
    (s : Session) :
  ∃ r,
    getObjectMetadata this objects s =
    (r, {| shouldNotDeploy := shouldNotDeploy s;
           calls := calls s ++ map (headObjectCall this) objects |})
    ∧ (∀ metadata,
         r = Resolved metadata ↔
         map (headObjectAnswer this) objects = map Resolved metadata)
    ∧ (∀ reason,
         r = Rejected reason →
         ∃ obj, obj ∈ objects ∧ headObjectAnswer this obj = Rejected reason).
Proof.
  exists (settleAll (map (headObjectAnswer this) objects)). split; [|split].
  - unfold getObjectMetadata. destruct objects as [|o os].
    + simpl. rewrite app_nil_r. by destruct s.
    + apply (all_perform (headObjectCall this) (headObjectAnswer this)).
  - intros metadata. apply settleAll_Resolved.
  - intros reason Hrej%settleAll_Rejected.
    apply list_elem_of_In, in_map_iff in Hrej as (obj & Hobj & Hin).
    exists obj. by split; [apply list_elem_of_In|].
Qed.

(** ** What the reconciler settles to *)

Section reconciler_settles_facts.

Lemma never_rejects_all {A} (ps : list (Promise A)) :
  Forall NeverRejects ps → NeverRejects (all ps).
Proof.
  induction 1 as [|p ps Hp _ IH]; intros s; simpl; [by eexists|].
  destruct (Hp s) as (a & Ha).
  destruct (p s) as [r s1]. simpl in Ha. subst r.
  destruct (IH s1) as (l & Hl).
  destruct (all ps s1) as [rs s2]. simpl in Hl. subst rs.
  by eexists.
Qed.

Lemma never_rejects_reconciler_events (this : Plugin) (account : AccountInfo)
    (functionName : string) :
  NeverRejects
    (match events (getFunction this functionName) with
     | None => resolve []
     | Some evs =>
         all (eventPromises this account (getRegion this) functionName
                (getFunction this functionName) 0 evs)
     end).
Proof.
  destruct (events _) as [evs|]; [|by intros s; eexists].
  apply never_rejects_all, eventPromises_Forall.
  - intros s. by eexists.
  - intros params s. apply fixLogGroupSubscriptionFilters_never_rejects.
Qed.

End reconciler_settles_facts.

(** X2. The reconciler rejects only when the account lookup does: then it
    rejects with that reason after this single call, without describing or
    deleting anything. When the account lookup resolves, the reconciler
    resolves whatever the describe and delete requests answer. In both cases
    it leaves [shouldNotDeploy] as it was. *)
Theorem reconciler_settles (this : Plugin) (s : Session) :
  match getAccountInfo this with
  | Resolved _ =>
      ∃ v, (checkLogGroupSubscriptionFilterResourceLimitExceeded this s).1
           = Resolved v
  | Rejected reason =>
      checkLogGroupSubscriptionFilterResourceLimitExceeded this s
      = (Rejected reason, record Provider_getAccountInfo s)
  end
  ∧ shouldNotDeploy (checkLogGroupSubscriptionFilterResourceLimitExceeded this s).2
    = shouldNotDeploy s.
Proof.
  split; [|apply keeps_reconciler].
  unfold checkLogGroupSubscriptionFilterResourceLimitExceeded, then_, perform.
  cbv zeta.
  destruct (getAccountInfo this) as [account|reason]; [|done].
  apply (never_rejects_all
           (map (λ functionName,
                   match events (getFunction this functionName) with
                   | None => resolve []
                   | Some evs =>
                       all (eventPromises this account (getRegion this)
                              functionName (getFunction this functionName) 0 evs)
                   end) (getAllFunctions this))).
  apply Forall_map, Forall_forall. intros functionName _.
  apply never_rejects_reconciler_events.
Qed.

(** ** The promises made for a function's events *)

Section numbering_facts.

Lemma bindings_cons (e : Event) (evs : list Event) :
  bindings (e :: evs)
  = (if logGroupNameOf e is Some _ then 1 else 0) + bindings evs.
Proof.
  unfold bindings. rewrite filter_cons.
  destruct (logGroupNameOf e) as [lg|]; simpl; [lia|done].
Qed.

Lemma eventPromises_lookup (this : Plugin) (account : AccountInfo)
    (region functionName : string) (functionObj : FunctionObj) (serial : Z)
    (evs : list Event) (i : nat) (event : Event) :
  evs !! i = Some event →
  eventPromises this account region functionName functionObj serial evs !! i
  = Some
      match logGroupNameOf event with
      | None => resolve ReturnedUndefined
      | Some logGroupName =>
          fixLogGroupSubscriptionFilters this
            {| p_accountId := accountId account;
               p_logGroupName := logGroupName;
               p_functionName := functionName;
               p_functionObj := functionObj;
               p_region := region;
               p_partition := partition account;
               p_logSubscriptionSerialNumber :=
                 serial + bindings (take (S i) evs) |}
      end.
Proof.
  revert serial i. induction evs as [|e evs IH]; intros serial [|i] Hi;
    simplify_eq/=.
  - rewrite bindings_cons. destruct (logGroupNameOf event); [|done].
    simpl. unfold bindings. simpl. do 3 f_equal; lia.
  - rewrite bindings_cons.
    destruct (logGroupNameOf e) as [lg|]; simpl; rewrite (IH _ _ Hi);
      destruct (logGroupNameOf event); try done; do 3 f_equal; lia.
Qed.

End numbering_facts.

(** X3. The reconciler makes one promise per event of a function, in the
    order the events are declared. For an event without a (non-empty)
    [cloudwatchLog] it is an already resolved promise and nothing is
    requested; for an event that binds a log group it is the fix of that log
    group, and the serial number it passes on is the number of binding events
    declared up to and including this one, so the numbers run 1, 2, ... over
    the binding events and skip the others. *)
Theorem eventPromises_numbering (this : Plugin) (account : AccountInfo)
    (region functionName : string) (functionObj : FunctionObj)
    (evs : list Event) (i : nat) (event : Event) :
  evs !! i = Some event →
  length (eventPromises this account region functionName functionObj 0 evs)
  = length evs
  ∧ eventPromises this account region functionName functionObj 0 evs !! i
    = Some
        match logGroupNameOf event with
        | None => resolve ReturnedUndefined
        | Some logGroupName =>
            fixLogGroupSubscriptionFilters this
              {| p_accountId := accountId account;
                 p_logGroupName := logGroupName;
                 p_functionName := functionName;
                 p_functionObj := functionObj;
                 p_region := region;
                 p_partition := partition account;
                 p_logSubscriptionSerialNumber := bindings (take (S i) evs) |}
        end.
Proof.
  intros Hi. split.
  - clear Hi. generalize 0. induction evs as [|e evs IH]; intros serial; [done|].
    simpl. destruct (logGroupNameOf e); simpl; by rewrite IH.
  - by rewrite (eventPromises_lookup _ _ _ _ _ 0 evs i event Hi).
Qed.

(** ** Filter names with fewer than two hyphens *)

(** X4. For a filter name without any hyphen [getLogicalIdFromFilterName]
    is [undefined]; for a name with exactly one hyphen it is the part before
    the hyphen (the first of the two segments), not a logical id between two
    hyphens. *)
Theorem getLogicalIdFromFilterName_few_hyphens :
  (∀ filterName,
     JsString.count "-" filterName = 0%nat →
     getLogicalIdFromFilterName filterName = None)
  ∧ (∀ before after,
       JsString.count "-" before = 0%nat →
       JsString.count "-" after = 0%nat →
       getLogicalIdFromFilterName (before +:+ "-" +:+ after) = Some before).
Proof.
  split.
  - intros filterName Hnone. unfold getLogicalIdFromFilterName. cbv zeta.
    by rewrite split_no_separator.
  - intros before after Hb Ha. unfold getLogicalIdFromFilterName. cbv zeta.
    change ("-" +:+ after) with (String "-" after).
    by rewrite split_app_separator, !split_no_separator.
Qed.

(** X5. A filter whose name holds no hyphen is always deleted, also when its
    destination ARN is the expected one: its logical id is [undefined], which
    equals no expected logical id. The describe call and this one delete are
    the only calls. *)
Theorem fixLogGroupSubscriptionFilters_unnamed_filter (this : Plugin)
    (params : FixParams) (s : Session)
    (subscriptionFilter : CloudWatchLogs.SubscriptionFilter)
    (others : list CloudWatchLogs.SubscriptionFilter) :
  request_describeSubscriptionFilters this (p_logGroupName params)
  = Resolved {| CloudWatchLogs.subscriptionFilters := subscriptionFilter :: others |} →
  JsString.count "-" (CloudWatchLogs.filterName subscriptionFilter) = 0%nat →
  calls (fixLogGroupSubscriptionFilters this params s).2
  = calls s
    ++ [ CloudWatchLogs_describeSubscriptionFilters (p_logGroupName params);
         CloudWatchLogs_deleteSubscriptionFilter (p_logGroupName params)
           (CloudWatchLogs.filterName subscriptionFilter) ].
Proof.
  intros Hdescribe Hnone.
  unfold fixLogGroupSubscriptionFilters, catch_, then_, perform, resolve.
  cbv zeta. rewrite Hdescribe. cbn [CloudWatchLogs.subscriptionFilters].
  unfold getLogicalIdFromFilterName. cbv zeta.
  rewrite split_no_separator by done.
  rewrite bool_decide_eq_false_2 by done. rewrite andb_false_r.
  destruct (request_deleteSubscriptionFilter this _ _); simpl;
    by rewrite <- app_assoc.
Qed.

(** ** A function that cannot be read, or no function at all *)

Section degraded_scan_facts.

Lemma getFunctionsEarliestLastModifiedDate_result (this : Plugin) (s : Session) :
  (getFunctionsEarliestLastModifiedDate this s).1
  = Resolved (fold_left earlier (map (functionDate this) (getAllFunctions this)) None).
Proof.
  unfold getFunctionsEarliestLastModifiedDate, then_.
  rewrite all_getFunctionResult, !map_map. cbn [fst].
  by destruct (existsb snd _).
Qed.

Lemma functionDate_rejected (this : Plugin) (funName : string) (err : JsError) :
  request_Lambda_getFunction this (name (getFunction this funName)) = Rejected err →
  functionDate this funName = 0.
Proof. unfold functionDate. by intros ->. Qed.

(** Without functions, or with a function whose request fails, the date the
    gate compares against is the epoch or earlier. *)
Lemma earliest_at_most_epoch (this : Plugin) :
  getAllFunctions this = []
  ∨ (∃ funName err,
       funName ∈ getAllFunctions this
       ∧ request_Lambda_getFunction this (name (getFunction this funName))
         = Rejected err) →
  toNumber (fold_left earlier (map (functionDate this) (getAllFunctions this)) None)
  ≤ 0.
Proof.
  intros [->|(funName & err & Hin & Hrej)]; [done|].
  pose proof (fold_earlier_minimum (map (functionDate this) (getAllFunctions this)))
    as Hmin.
  destruct (map (functionDate this) (getAllFunctions this)) as [|d dates] eqn:Hdates.
  { destruct (getAllFunctions this); [by apply elem_of_nil in Hin|done]. }
  destruct Hmin as (m & -> & _ & Hmin). simpl.
  apply Hmin. rewrite <- (functionDate_rejected this funName err Hrej).
  rewrite <- Hdates. apply list_elem_of_In, in_map. by apply list_elem_of_In.
Qed.

End degraded_scan_facts.

(** X6. When the service has no function, or the [getFunction] request of
    some function fails (whatever the error), the unforced evaluation never
    sets [shouldNotDeploy] if one of the remote objects of the latest
    generation was modified after the epoch, whatever the hashes: the date
    the objects are compared with is then the epoch or earlier. *)
Theorem unreadable_function_prevents_skip (this : Plugin) (s : Session)
    (objs : list S3.Object) (remoteObjects : list S3.HeadObjectOutput) :
  shouldNotDeploy s = false →
  getAllFunctions this = []
  ∨ (∃ funName err,
       funName ∈ getAllFunctions this
       ∧ request_Lambda_getFunction this (name (getFunction this funName))
         = Rejected err) →
  (getMostRecentObjects this newSession).1 = Resolved objs →
  (getObjectMetadata this objs newSession).1 = Resolved remoteObjects →
  (∃ object t,
     object ∈ remoteObjects ∧ S3.LastModified object = Some t ∧ 0 < t) →
  shouldNotDeploy (evaluation this s).2 = false.
Proof.
  intros Hs Hscan Hobjs Hmeta (object & t & Hin & Ht & Hpos).
  apply not_true_is_false. intros Hskip.
  apply evaluation_skip_iff in Hskip
    as (objs' & remote' & earliest & Hobjs' & Hmeta' & Hearliest & _ & _
        & _ & HgateA & _); [|done].
  assert (objs' = objs) as -> by congruence.
  assert (remote' = remoteObjects) as -> by congruence.
  rewrite getFunctionsEarliestLastModifiedDate_result in Hearliest.
  injection Hearliest as <-.
  apply (HgateA object t Hin Ht).
  pose proof (earliest_at_most_epoch this Hscan). lia.
Qed.

(** ** The latest generation is never empty *)

Section latest_generation_facts.

Lemma StronglySorted_filter {A} (R : relation A) (P : A → Prop)
    `{∀ x, Decision (P x)} (l : list A) :
  StronglySorted R l → StronglySorted R (filter P l).
Proof.
  induction 1 as [|x l Hl IH Hx]; [constructor|].
  rewrite filter_cons. destruct (decide (P x)); [|done].
  constructor; [done|].
  rewrite Forall_forall in Hx. apply Forall_forall.
  intros y [_ Hy]%list_elem_of_filter. by apply Hx.
Qed.

End latest_generation_facts.

(** X7. For a listing that holds objects, [getMostRecentObjects] makes the
    one listing request for the prefix [deploymentPrefix/service/stage],
    leaves the flag alone and resolves with a list that is never empty: it
    starts with an object of greatest key and runs in descending key
    order. *)
Theorem getMostRecentObjects_run (this : Plugin) (s : Session)
    (result : S3.ListObjectsV2Output) (o : S3.Object) (os : list S3.Object) :
  request_S3_listObjectsV2 this (bucketName this)
    (getDeploymentPrefix this +:+ "/" +:+ service this +:+ "/" +:+ getStage this)
  = Resolved result →
  S3.Contents result = Some (o :: os) →
  ∃ first rest,
    getMostRecentObjects this s
    = (Resolved (first :: rest),
       record (S3_listObjectsV2 (bucketName this)
                 (getDeploymentPrefix this +:+ "/" +:+ service this +:+ "/"
                  +:+ getStage this)) s)
    ∧ first ∈ o :: os
    ∧ (∀ obj, obj ∈ o :: os → String.le (S3.Key obj) (S3.Key first))
    ∧ StronglySorted keyDesc (first :: rest).
Proof.
  intros Hlist Hcontents.
  unfold getMostRecentObjects, then_, catch_, perform. cbv zeta.
  rewrite Hlist. cbv beta iota. rewrite Hcontents.
  remember (o :: os) as objects eqn:Hobjects.
  destruct (orderBy_Key_desc objects) as [|first rest] eqn:Hord.
  { pose proof (orderBy_Key_desc_Permutation objects) as Hperm.
    rewrite Hord in Hperm. apply Permutation_nil in Hperm. congruence. }
  destruct (orderBy_Key_desc_first _ _ _ Hord) as [Hin Hmax].
  pose proof (orderBy_Key_desc_Sorted objects) as Hsorted.
  rewrite Hord in Hsorted.
  apply (@Sorted_StronglySorted _ _ keyDesc_trans) in Hsorted.
  exists first,
    (filter (λ obj, directoryOf (S3.Key first) = directoryOf (S3.Key obj)) rest).
  split; [|split; [done|split; [done|]]].
  - subst objects. unfold resolve. by rewrite filter_cons_True.
  - rewrite <- (filter_cons_True
                  (λ obj, directoryOf (S3.Key first) = directoryOf (S3.Key obj)))
      by done.
    by apply StronglySorted_filter.
Qed.

(** ** The run of the necessity check *)

Section necessity_run_facts.

Lemma all_hashFile_run (this : Plugin) (paths : list string) (s : Session) :
  all (map (hashFile this) paths) s =
  (settleAll (map (fileHash this) paths),
   {| shouldNotDeploy := shouldNotDeploy s;
      calls := calls s ++ hashCalls this paths |}).
Proof.
  revert s. induction paths as [|path paths IH]; intros s.
  { simpl. rewrite app_nil_r. by destruct s. }
  cbn [map all settleAll hashCalls flat_map].
  unfold hashFile at 1. unfold then_, perform, fileHash at 1.
  destruct (readFile this path) as [zipFile|reason]; rewrite IH; simpl;
    rewrite <- ?app_assoc; simpl;
    by destruct (settleAll (map (fileHash this) paths)).
Qed.

(** The whole run of [checkIfDeploymentIsNecessary] on a non-empty list. *)
Lemma checkIfDeploymentIsNecessary_run (this : Plugin)
    (o : S3.HeadObjectOutput) (os : list S3.HeadObjectOutput)
    (funcLastModifiedDate : option Z) (s : Session) :
  checkIfDeploymentIsNecessary this (o :: os) funcLastModifiedDate s =
  match settleAll (map (fileHash this) (zipFilePathsOf this).2) with
  | Rejected reason =>
      (Rejected reason,
       {| shouldNotDeploy := shouldNotDeploy s;
          calls := calls s ++ preambleCalls this |})
  | Resolved zipFileHashes =>
      let localHashes :=
        zipFileHashes ++ [sha256_base64 this (normCfTemplateJson this)] in
      let changed := existsb (modifiedAfter funcLastModifiedDate) (o :: os) in
      let equal := areHashesEqual (map remoteHash (o :: os)) localHashes in
      (Resolved tt,
       {| shouldNotDeploy :=
            if negb changed && equal then true else shouldNotDeploy s;
          calls :=
            calls s ++ preambleCalls this
            ++ verdictCalls changed equal zipFileHashes
                 (sort (map remoteHash (o :: os))) (sort localHashes) |})
  end.
Proof.
  unfold checkIfDeploymentIsNecessary, preambleCalls. cbv beta iota.
  remember (o :: os) as objects eqn:Hobjects.
  destruct (zipFilePathsOf this) as [zipFiles zipFilePaths]. cbn [fst snd].
  unfold then_ at 1. unfold perform at 1.
  unfold then_ at 1. unfold cli_log at 1, perform at 1.
  unfold then_ at 1. unfold cli_log at 1, perform at 1.
  unfold then_ at 1. unfold cli_log at 1, perform at 1.
  unfold then_ at 1. rewrite all_hashFile_run.
  destruct (settleAll _) as [zipFileHashes|reason].
  - unfold then_, cli_log, perform, set_shouldNotDeploy, resolve, record,
      verdictCalls.
    cbv zeta.
    destruct (existsb _ objects); destruct (areHashesEqual _ _); simpl;
      f_equal; f_equal; rewrite <- !app_assoc; reflexivity.
  - simpl. f_equal. f_equal. rewrite <- !app_assoc. reflexivity.
Qed.

End necessity_run_facts.

(** X8. [checkIfDeploymentIsNecessary] does nothing at all for an empty
    object list. It rejects only with the rejection of a read of one of the
    artifact files, and then leaves [shouldNotDeploy] as it was; when every
    artifact can be read it resolves. It never clears a flag that is set. *)
Theorem checkIfDeploymentIsNecessary_settles (this : Plugin)
    (objects : list S3.HeadObjectOutput) (funcLastModifiedDate : option Z)
    (s : Session) :
  (objects = [] →
   checkIfDeploymentIsNecessary this objects funcLastModifiedDate s
   = (Resolved tt, s))
  ∧ (∀ reason,
       (checkIfDeploymentIsNecessary this objects funcLastModifiedDate s).1
       = Rejected reason →
       shouldNotDeploy
         (checkIfDeploymentIsNecessary this objects funcLastModifiedDate s).2
       = shouldNotDeploy s
       ∧ ∃ path, path ∈ (zipFilePathsOf this).2
                 ∧ readFile this path = Rejected reason)
  ∧ ((∀ path, path ∈ (zipFilePathsOf this).2 →
              ∃ zipFile, readFile this path = Resolved zipFile) →
     (checkIfDeploymentIsNecessary this objects funcLastModifiedDate s).1
     = Resolved tt)
  ∧ (shouldNotDeploy s = true →
     shouldNotDeploy
       (checkIfDeploymentIsNecessary this objects funcLastModifiedDate s).2
     = true).
Proof.
  split; [by intros ->|]. split; [|split].
  - intros reason. destruct objects as [|o os]; [done|].
    rewrite checkIfDeploymentIsNecessary_run.
    destruct (settleAll _) as [zs|reason'] eqn:Hall; [done|].
    intros [= ->]. split; [done|].
    apply settleAll_Rejected, list_elem_of_In, in_map_iff in Hall
      as (path & Hpath & Hin).
    exists path. split; [by apply list_elem_of_In|].
    unfold fileHash in Hpath. by destruct (readFile this path).
  - intros Hread. destruct objects as [|o os]; [done|].
    rewrite checkIfDeploymentIsNecessary_run.
    destruct (settleAll _) as [zs|reason] eqn:Hall; [done|].
    apply settleAll_Rejected, list_elem_of_In, in_map_iff in Hall
      as (path & Hpath & Hin).
    destruct (Hread path) as (zipFile & Hzip); [by apply list_elem_of_In|].
    unfold fileHash in Hpath. by rewrite Hzip in Hpath.
  - intros Hs. rewrite checkIfDeploymentIsNecessary_flag, Hs.
    destruct objects; [done|].
    destruct (settleAll _); [|done]. by destruct (_ && _).
Qed.

(** ** What the verdict logs *)

Section report_facts.

Lemma hasLog_spec (msg : string) (cs : list Call) :
  hasLog msg cs = true ↔ Cli_log msg ∈ cs.
Proof.
  unfold hasLog. rewrite existsb_exists. split.
  - intros (c & Hin & Hc). destruct c; try done.
    apply String.eqb_eq in Hc as ->. by apply list_elem_of_In.
  - intros Hin. exists (Cli_log msg).
    split; [by apply list_elem_of_In|]. apply String.eqb_refl.
Qed.

Lemma hasLog_app (msg : string) (cs cs' : list Call) :
  hasLog msg (cs ++ cs') = hasLog msg cs || hasLog msg cs'.
Proof. apply existsb_app. Qed.

Lemma hasLog_hashCalls (msg : string) (this : Plugin) (paths : list string) :
  hasLog msg (hashCalls this paths) = false.
Proof.
  induction paths as [|path paths IH]; [done|].
  cbn [hashCalls flat_map]. fold (hashCalls this paths).
  rewrite hasLog_app, IH. by destruct (readFile this path).
Qed.

(** Which of the four lines the run logs, by the two tests. *)
Lemma hasLog_verdict (this : Plugin) (changed equal : bool)
    (zipFileHashes remoteHashes localHashes : list string) :
  let new :=
    preambleCalls this
    ++ verdictCalls changed equal zipFileHashes remoteHashes localHashes in
  hasLog skippingLine new = negb changed && equal
  ∧ hasLog notSkippingLine new = negb (negb changed && equal)
  ∧ hasLog driftLine new = changed
  ∧ hasLog hashesLine new = negb equal.
Proof.
  cbv zeta. unfold preambleCalls.
  rewrite !hasLog_app, !hasLog_hashCalls.
  by destruct changed, equal.
Qed.

End report_facts.

(** X9. When the remote object list is not empty and the artifacts can be
    read, the lines [checkIfDeploymentIsNecessary] logs tell the verdict and
    its reasons: the skipping line is logged exactly when both gates pass,
    the not-skipping line exactly when one fails, the drift reason exactly
    when Gate A fails and the hash reason exactly when Gate B fails. *)
Theorem checkIfDeploymentIsNecessary_reports (this : Plugin)
    (objects : list S3.HeadObjectOutput) (funcLastModifiedDate : option Z)
    (s : Session) (localHashes : list string) :
  objects ≠ [] →
  LocalHashes this localHashes →
  ∃ new,
    calls (checkIfDeploymentIsNecessary this objects funcLastModifiedDate s).2
    = calls s ++ new
    ∧ (Cli_log skippingLine ∈ new ↔
       GateA objects funcLastModifiedDate ∧ GateB objects localHashes)
    ∧ (Cli_log notSkippingLine ∈ new ↔
       ¬ (GateA objects funcLastModifiedDate ∧ GateB objects localHashes))
    ∧ (Cli_log driftLine ∈ new ↔ ¬ GateA objects funcLastModifiedDate)
    ∧ (Cli_log hashesLine ∈ new ↔ ¬ GateB objects localHashes).
Proof.
  intros Hne (zipFileHashes & Hall & ->).
  destruct objects as [|o os]; [done|].
  rewrite checkIfDeploymentIsNecessary_run, Hall. cbv zeta.
  remember (o :: os) as objects eqn:Hobjects.
  set (localHashes := zipFileHashes ++ _).
  set (changed := existsb _ objects).
  set (equal := areHashesEqual _ localHashes).
  eexists. split; [reflexivity|].
  destruct (hasLog_verdict this changed equal zipFileHashes
              (sort (map remoteHash objects)) (sort localHashes))
    as (Hskip & Hnot & Hdrift & Hhash).
  rewrite <- !hasLog_spec, Hskip, Hnot, Hdrift, Hhash.
  assert (HA : changed = false ↔ GateA objects funcLastModifiedDate)
    by apply changedAfterDeploy_GateA.
  assert (HB : equal = true ↔ GateB objects localHashes)
    by apply areHashesEqual_Permutation.
  destruct changed, equal; simpl; intuition congruence.
Qed.

(** ** The verdict of the whole check *)

Section whole_check_facts.

Lemma evaluation_rejected_flag (this : Plugin) (s : Session) (reason : JsError) :
  (evaluation this s).1 = Rejected reason →
  shouldNotDeploy (evaluation this s).2 = shouldNotDeploy s.
Proof.
  unfold evaluation, then_, all2.
  destruct (same_getMostRecentObjects this) as [_ Hkeep1]. specialize (Hkeep1 s).
  destruct (getMostRecentObjects this s) as [[objs|reason1] s1]; simpl in *;
    [|done].
  destruct (same_getObjectMetadata this objs) as [_ Hkeep2]. specialize (Hkeep2 s1).
  destruct (getObjectMetadata this objs s1) as [r2 s2]; simpl in *.
  destruct (same_getFunctionsEarliestLastModifiedDate this) as [_ Hkeep3].
  specialize (Hkeep3 s2).
  destruct (getFunctionsEarliestLastModifiedDate this s2) as [r3 s3]; simpl in *.
  destruct r2 as [objects|reason2], r3 as [earliest|reason3]; simpl;
    try (intros _; congruence).
  destruct objects as [|o os]; [done|].
  rewrite checkIfDeploymentIsNecessary_run.
  destruct (settleAll _); [done|]. simpl. intros _. congruence.
Qed.

End whole_check_facts.

(** ** A metadata fetch that fails *)

Section metadata_failure_facts.

Lemma emits_fetches (this : Plugin) :
  Emits (λ c, isFetchCall c = true) (getMostRecentObjects this)
  ∧ (∀ objs, Emits (λ c, isFetchCall c = true) (getObjectMetadata this objs))
  ∧ Emits (λ c, isFetchCall c = true) (getFunctionsEarliestLastModifiedDate this).
Proof.
  split; [|split].
  - unfold getMostRecentObjects. promise_struct.
  - intros objs. unfold getObjectMetadata. promise_struct.
  - unfold getFunctionsEarliestLastModifiedDate.
    promise_struct; unfold getFunctionResult; promise_struct.
Qed.

End metadata_failure_facts.

(** X11. When one of the [headObject] requests for the latest generation is
    rejected, the unforced [checkForChanges] is rejected with that reason
    and [shouldNotDeploy] is false. Only the listing, the metadata requests
    and the function scan have run: no file is read, nothing is hashed and
    the reconciler is not started. *)
Theorem headObject_rejection_aborts (this : Plugin) (s : Session)
    (objs : list S3.Object) (reason : JsError) :
  force this = false →
  (getMostRecentObjects this newSession).1 = Resolved objs →
  (getObjectMetadata this objs newSession).1 = Rejected reason →
  (checkForChanges this s).1 = Rejected reason
  ∧ shouldNotDeploy (checkForChanges this s).2 = false
  ∧ ∃ new,
      calls (checkForChanges this s).2 = calls s ++ new
      ∧ Forall (λ c, isFetchCall c = true) new.
Proof.
  intros Hforce Hobjs Hmeta.
  rewrite !checkForChanges_run, Hforce. cbv zeta.
  set (s0 := {| shouldNotDeploy := false; calls := calls s |}).
  unfold evaluation, then_, all2.
  destruct (emits_fetches this) as (Hemit1 & Hemit2 & Hemit3).
  destruct (same_getMostRecentObjects this) as [Hsame1 Hkeep1].
  specialize (Hsame1 s0 newSession). specialize (Hkeep1 s0).
  destruct (Hemit1 s0) as (n1 & Hcalls1 & Hn1).
  destruct (getMostRecentObjects this s0) as [r1 s1]; simpl in *.
  rewrite Hobjs in Hsame1. subst r1.
  destruct (same_getObjectMetadata this objs) as [Hsame2 Hkeep2].
  specialize (Hsame2 s1 newSession). specialize (Hkeep2 s1).
  destruct (Hemit2 objs s1) as (n2 & Hcalls2 & Hn2).
  destruct (getObjectMetadata this objs s1) as [r2 s2]; simpl in *.
  rewrite Hmeta in Hsame2. subst r2.
  destruct (same_getFunctionsEarliestLastModifiedDate this) as [_ Hkeep3].
  specialize (Hkeep3 s2).
  destruct (Hemit3 s2) as (n3 & Hcalls3 & Hn3).
  destruct (getFunctionsEarliestLastModifiedDate this s2) as [r3 s3]; simpl in *.
  split; [done|]. split; [congruence|].
  exists (n1 ++ n2 ++ n3). split.
  - by rewrite Hcalls3, Hcalls2, Hcalls1, <- !app_assoc.
  - by rewrite !Forall_app.
Qed.

(** ** Log group names without line breaks *)

Section newline_facts.

Local Open Scope nat_scope.

Lemma removeNewlines_cons (c : ascii) (s : string) :
  JsString.removeNewlines (String c s) =
  if Ascii.eqb c "010" then JsString.removeNewlines s
  else if Ascii.eqb c "013" then
    match s with
    | String c' s' =>
        if Ascii.eqb c' "010" then JsString.removeNewlines s'
        else String c (JsString.removeNewlines s)
    | EmptyString => String c ""
    end
  else String c (JsString.removeNewlines s).
Proof. done. Qed.

Lemma removeNewlines_no_newline (s : string) :
  JsString.count "010" (JsString.removeNewlines s) = 0.
Proof.
  induction s as [|c s IH]; [done|].
  rewrite removeNewlines_cons.
  destruct (Ascii.eqb c "010") eqn:Hc; [done|].
  destruct (Ascii.eqb c "013") eqn:Hr.
  - destruct s as [|c' s']; [cbn [JsString.count]; by rewrite Hc|].
    rewrite removeNewlines_cons in IH.
    destruct (Ascii.eqb c' "010") eqn:Hc'; [done|].
    cbn [JsString.count]. rewrite Hc.
    by rewrite removeNewlines_cons, Hc', IH.
  - cbn [JsString.count]. by rewrite Hc, IH.
Qed.

Lemma removeNewlines_id (s : string) :
  JsString.count "010" s = 0 → JsString.removeNewlines s = s.
Proof.
  induction s as [|c s IH]; [done|].
  rewrite removeNewlines_cons. cbn [JsString.count].
  destruct (Ascii.eqb c "010") eqn:Hc; [done|]. rewrite Nat.add_0_l.
  intros Hs.
  destruct (Ascii.eqb c "013"); [|by rewrite IH].
  destruct s as [|c' s']; [done|].
  pose proof Hs as Hs'. cbn [JsString.count] in Hs'.
  destruct (Ascii.eqb c' "010"); [done|]. by rewrite IH.
Qed.

Lemma removeNewlines_keeps (a : ascii) (s : string) :
  a ≠ "010"%char → a ≠ "013"%char →
  JsString.count a (JsString.removeNewlines s) = JsString.count a s.
Proof.
  intros Hn Hr.
  assert (En : Ascii.eqb "010" a = false) by (by apply Ascii.eqb_neq).
  assert (Er : Ascii.eqb "013" a = false) by (by apply Ascii.eqb_neq).
  induction s as [|c s IH]; [done|].
  rewrite removeNewlines_cons.
  destruct (Ascii.eqb_spec c "010") as [->|Hc].
  { cbn [JsString.count]. by rewrite En, IH. }
  destruct (Ascii.eqb_spec c "013") as [->|Hc'].
  - destruct s as [|c' s']; [done|].
    rewrite removeNewlines_cons in IH.
    destruct (Ascii.eqb_spec c' "010") as [->|Hc''].
    + cbn [JsString.count]. cbn [JsString.count] in IH.
      by rewrite En, Er, IH, En.
    + cbn [JsString.count]. cbn [JsString.count] in IH.
      rewrite Er, removeNewlines_cons.
      destruct (Ascii.eqb_spec c' "010"); [done|]. by rewrite IH.
  - cbn [JsString.count]. by rewrite IH.
Qed.

End newline_facts.

(** X12. The log group name the reconciler works with never holds a line
    feed: removing the line breaks leaves none, changes nothing in a name
    without line feed, removes only line feeds and carriage returns (every
    other character occurs as often as before), and doing it twice is doing
    it once. *)
Theorem removeNewlines_spec :
  (∀ s, JsString.count "010" (JsString.removeNewlines s) = 0%nat)
  ∧ (∀ s, JsString.count "010" s = 0%nat → JsString.removeNewlines s = s)
  ∧ (∀ a s, a ≠ "010"%char → a ≠ "013"%char →
            JsString.count a (JsString.removeNewlines s) = JsString.count a s)
  ∧ (∀ s, JsString.removeNewlines (JsString.removeNewlines s)
          = JsString.removeNewlines s)
  ∧ (∀ event logGroupName,
       logGroupNameOf event = Some logGroupName →
       JsString.count "010" logGroupName = 0%nat).
Proof.
  split; [apply removeNewlines_no_newline|].
  split; [apply removeNewlines_id|].
  split; [intros a s; apply removeNewlines_keeps|].
  split; [intros s; apply removeNewlines_id, removeNewlines_no_newline|].
  intros event lg. unfold logGroupNameOf.
  destruct (cloudwatchLog event) as [[g|g]|]; [| |done].
  - destruct (String.eqb g ""); [done|].
    intros [= <-]. apply removeNewlines_no_newline.
  - intros [= <-]. apply removeNewlines_no_newline.
Qed.

(** ** Every artifact is read once *)

Section unique_facts.

Lemma uniqueFrom_spec (seen xs : list string) :
  NoDup (uniqueFrom seen xs)
  ∧ ∀ x, x ∈ uniqueFrom seen xs ↔ x ∈ xs ∧ x ∉ seen.
Proof.
  revert seen. induction xs as [|y xs IH]; intros seen; simpl.
  { split; [constructor|]. intros x. rewrite elem_of_nil. tauto. }
  destruct (decide (y ∈ seen)) as [Hy|Hy].
  - destruct (IH seen) as [Hnd Hin]. split; [done|].
    intros x. rewrite Hin, elem_of_cons.
    split; [tauto|]. intros [[->|Hx] Hseen]; [done|tauto].
  - destruct (IH (y :: seen)) as [Hnd Hin]. split.
    + constructor; [|done]. rewrite Hin, elem_of_cons. tauto.
    + intros x. rewrite !elem_of_cons, Hin, elem_of_cons.
      destruct (decide (x = y)) as [->|Hne]; [tauto|]. tauto.
Qed.

Lemma readPaths_app (cs cs' : list Call) :
  readPaths (cs ++ cs') = readPaths cs ++ readPaths cs'.
Proof. apply flat_map_app. Qed.

Lemma readPaths_hashCalls (this : Plugin) (paths : list string) :
  readPaths (hashCalls this paths) = paths.
Proof.
  induction paths as [|path paths IH]; [done|].
  cbn [hashCalls flat_map]. fold (hashCalls this paths).
  rewrite readPaths_app, IH. by destruct (readFile this path).
Qed.

Lemma readPaths_verdictCalls (changed equal : bool)
    (zipFileHashes remoteHashes localHashes : list string) :
  readPaths (verdictCalls changed equal zipFileHashes remoteHashes localHashes)
  = [].
Proof. by destruct changed, equal. Qed.

End unique_facts.

(** X14. A skip needs as many remote objects as there are local hashes: if
    [checkIfDeploymentIsNecessary] sets the flag, the remote object list has
    exactly one element more than there are artifact files (the template's).
    A generation with an object too many or too few is always deployed. *)
Theorem skip_needs_equal_counts (this : Plugin)
    (objects : list S3.HeadObjectOutput) (funcLastModifiedDate : option Z)
    (s : Session) :
  shouldNotDeploy s = false →
  shouldNotDeploy
    (checkIfDeploymentIsNecessary this objects funcLastModifiedDate s).2 = true →
  length objects = S (length (zipFilePathsOf this).2).
Proof.
  intros Hs Hskip.
  apply skip_iff_gates in Hskip
    as (_ & localHashes & (zipFileHashes & Hall & ->) & _ & Hperm); [|done].
  apply Permutation_length in Hperm.
  apply settleAll_Resolved in Hall. apply (f_equal length) in Hall.
  rewrite !length_map in Hall. rewrite length_map, length_app in Hperm.
  simpl in Hperm. lia.
Qed.

(** ** How many requests the reconciler makes *)

Section tally_facts.

Local Open Scope nat_scope.

Lemma countCalls_app (f : Call → bool) (cs cs' : list Call) :
  countCalls f (cs ++ cs') = countCalls f cs + countCalls f cs'.
Proof. unfold countCalls. by rewrite List.filter_app, length_app. Qed.

Lemma tally_resolve {A} (a : A) : Tally 0 (resolve a).
Proof. intros s. exists []. by rewrite app_nil_r. Qed.

Lemma tally_fixLogGroupSubscriptionFilters (this : Plugin) (params : FixParams) :
  Tally 1 (fixLogGroupSubscriptionFilters this params).
Proof.
  intros s.
  unfold fixLogGroupSubscriptionFilters, catch_, then_, perform, resolve.
  cbv zeta.
  assert (Hone : ∃ new,
             calls s ++ [CloudWatchLogs_describeSubscriptionFilters
                           (p_logGroupName params)]
             = calls s ++ new
             ∧ countCalls isDescribeCall new = 1
             ∧ countCalls isDeleteCall new ≤ 1).
  { eexists. split; [reflexivity|]. unfold countCalls. simpl. lia. }
  destruct (request_describeSubscriptionFilters this _) as [response|reason];
    [|exact Hone].
  destruct (CloudWatchLogs.subscriptionFilters response) as [|f filters];
    [exact Hone|].
  destruct (_ && _); [exact Hone|].
  destruct (request_deleteSubscriptionFilter this _ _); simpl;
    rewrite <- app_assoc;
    (eexists; split; [reflexivity|]; unfold countCalls; simpl; lia).
Qed.

Lemma tally_all {A} (ns : list nat) (ps : list (Promise A)) :
  Forall2 Tally ns ps → Tally (sum_list ns) (all ps).
Proof.
  induction 1 as [|n p ns ps Hp _ IH]; intros s; simpl.
  { exists []. by rewrite app_nil_r. }
  destruct (Hp s) as (n1 & E1 & D1 & L1).
  destruct (p s) as [r s1]; simpl in *.
  destruct (IH s1) as (n2 & E2 & D2 & L2).
  destruct (all ps s1) as [rs s2]; simpl in *.
  exists (n1 ++ n2). rewrite E2, E1, app_assoc, !countCalls_app.
  split; [done|]. split; lia.
Qed.

Lemma tally_eventPromises (this : Plugin) (account : AccountInfo)
    (region functionName : string) (functionObj : FunctionObj) (serial : Z)
    (evs : list Event) :
  Tally (Z.to_nat (bindings evs))
    (all (eventPromises this account region functionName functionObj serial evs)).
Proof.
  assert (H : ∃ ns,
             sum_list ns = Z.to_nat (bindings evs)
             ∧ Forall2 Tally ns
                 (eventPromises this account region functionName functionObj
                    serial evs)).
  { revert serial. induction evs as [|e evs IH]; intros serial.
    { exists []. split; [done|constructor]. }
    rewrite bindings_cons. simpl.
    destruct (logGroupNameOf e) as [lg|].
    - destruct (IH (serial + 1)%Z) as (ns & Hsum & Hall).
      exists (1 :: ns). split.
      + simpl. rewrite Hsum. unfold bindings. lia.
      + constructor; [apply tally_fixLogGroupSubscriptionFilters|done].
    - destruct (IH serial) as (ns & Hsum & Hall).
      exists (0 :: ns). split; [by simpl; rewrite Hsum|].
      constructor; [apply tally_resolve|done]. }
  destruct H as (ns & <- & Hall). by apply tally_all.
Qed.

Lemma totalBindings_nonneg (this : Plugin) : (0 ≤ totalBindings this)%Z.
Proof.
  unfold totalBindings. induction (getAllFunctions this) as [|f fs IH]; [done|].
  simpl. destruct (events _); unfold bindings in *; lia.
Qed.

End tally_facts.

(** ** The further properties on the sample service *)

Lemma eventPromises_numbering_witness :
  eventPromises quietPlugin
    {| accountId := "123456789012"; partition := "aws" |} "us-east-1" "basic"
    (sampleFunction "basic") 0 sampleEvents !! 3%nat
  = Some
      (fixLogGroupSubscriptionFilters quietPlugin
         {| p_accountId := "123456789012";
            p_logGroupName := "/aws/lambda/second";
            p_functionName := "basic";
            p_functionObj := sampleFunction "basic";
            p_region := "us-east-1";
            p_partition := "aws";
            p_logSubscriptionSerialNumber := 2 |}).
Proof.
  exact (proj2 (eventPromises_numbering quietPlugin
                  {| accountId := "123456789012"; partition := "aws" |}
                  "us-east-1" "basic" (sampleFunction "basic") sampleEvents 3
                  {| cloudwatchLog := Some (CloudwatchLogString "/aws/lambda/second") |}
                  eq_refl)).
Defined.

Lemma fixLogGroupSubscriptionFilters_unnamed_filter_witness :
  calls (fixLogGroupSubscriptionFilters unnamedFilterPlugin sampleFixParams
           newSession).2
  = [ CloudWatchLogs_describeSubscriptionFilters "/aws/lambda/source";
      CloudWatchLogs_deleteSubscriptionFilter "/aws/lambda/source" "legacyfilter" ].
Proof.
  exact (fixLogGroupSubscriptionFilters_unnamed_filter unnamedFilterPlugin
           sampleFixParams newSession unnamedFilter [] eq_refl eq_refl).
Defined.

Lemma unreadable_function_prevents_skip_witness :
  shouldNotDeploy (evaluation forbiddenListedPlugin newSession).2 = false.
Proof.
  apply (unreadable_function_prevents_skip forbiddenListedPlugin newSession
           sampleLatest [uploadedAt1000; uploadedAt1000]).
  - reflexivity.
  - right. exists "basic". eexists. split; [by left|reflexivity].
  - vm_compute. reflexivity.
  - vm_compute. reflexivity.
  - exists uploadedAt1000, 1000. split; [by left|]. split; [reflexivity|lia].
Defined.

Lemma getMostRecentObjects_run_witness :
  ∃ first rest,
    (getMostRecentObjects listedPlugin newSession).1 = Resolved (first :: rest)
    ∧ first ∈ sampleListing.
Proof.
  destruct (getMostRecentObjects_run listedPlugin newSession
              {| S3.Contents := Some sampleListing |} _ _ eq_refl eq_refl)
    as (first & rest & Hrun & Hin & _).
  exists first, rest. split; [by rewrite Hrun|exact Hin].
Defined.

Lemma checkIfDeploymentIsNecessary_reports_witness :
  ∃ new,
    calls (checkIfDeploymentIsNecessary quietPlugin unchangedObjects (Some 999)
             newSession).2 = calls newSession ++ new
    ∧ (Cli_log driftLine ∈ new ↔ ¬ GateA unchangedObjects (Some 999)).
Proof.
  destruct (checkIfDeploymentIsNecessary_reports quietPlugin unchangedObjects
              (Some 999) newSession
              ["sha256:zip:/srv/.serverless/service.zip"; "sha256:{}"])
    as (new & Hcalls & _ & _ & Hdrift & _).
  - discriminate.
  - exists ["sha256:zip:/srv/.serverless/service.zip"]. split; reflexivity.
  - exists new. split; [exact Hcalls|exact Hdrift].
Defined.

Lemma headObject_rejection_aborts_witness :
  (checkForChanges listedPlugin newSession).1
  = Rejected {| message := "NotFound";
                providerError := Some {| statusCode := 404 |} |}
  ∧ shouldNotDeploy (checkForChanges listedPlugin newSession).2 = false.
Proof.
  destruct (headObject_rejection_aborts listedPlugin newSession sampleLatest
              {| message := "NotFound";
                 providerError := Some {| statusCode := 404 |} |})
    as (Hrej & Hflag & _).
  - reflexivity.
  - vm_compute. reflexivity.
  - vm_compute. reflexivity.
  - split; [exact Hrej|exact Hflag].
Defined.

Lemma skip_needs_equal_counts_witness :
  length unchangedObjects = S (length (zipFilePathsOf quietPlugin).2).
Proof.
  apply (skip_needs_equal_counts quietPlugin unchangedObjects (Some 2000)
           newSession).
  - reflexivity.
  - vm_compute. reflexivity.
Defined.

(** ** The first deployment and a failed listing *)

Section first_deployment_facts.



Lemma getMostRecentObjects_rejected (this : Plugin) (s : Session)
    (reason : JsError) :
  request_S3_listObjectsV2 this (bucketName this) (listingPrefix this)
  = Rejected reason →
  getMostRecentObjects this s
  = (Rejected (listingRejection this reason),
     record (S3_listObjectsV2 (bucketName this) (listingPrefix this)) s).
Proof.
  unfold listingPrefix, listingRejection. intros Hlist.
  unfold getMostRecentObjects, then_, catch_, perform. cbv zeta.
  rewrite Hlist. by destruct (JsString.includes _ (message reason)).
Qed.

End first_deployment_facts.


(** X17. When the listing is rejected, the unforced [checkForChanges] is
    rejected right after this one request, with the bucket-missing error if
    the message says the bucket does not exist and with the listing's own
    reason otherwise: no function is looked up, nothing else is requested,
    and [shouldNotDeploy] is false. *)
Theorem checkForChanges_listing_rejected (this : Plugin) (s : Session)
    (reason : JsError) :
  force this = false →
  request_S3_listObjectsV2 this (bucketName this) (listingPrefix this)
  = Rejected reason →
  checkForChanges this s
  = (Rejected (listingRejection this reason),
     {| shouldNotDeploy := false;
        calls := calls s
                 ++ [S3_listObjectsV2 (bucketName this) (listingPrefix this)] |}).
Proof.
  intros Hforce Hlist. rewrite checkForChanges_run, Hforce. cbv zeta.
  unfold evaluation, then_ at 1.
  by rewrite (getMostRecentObjects_rejected this _ reason Hlist).
Qed.

(** ** The logical id and the filters of this deployment *)

Section own_filter_facts.

Local Open Scope nat_scope.

Lemma split_segments_no_separator (c : ascii) (s seg : string) :
  seg ∈ JsString.split c s → JsString.count c seg = 0.
Proof.
  revert seg. induction s as [|a s IH]; intros seg; simpl.
  { by intros ->%list_elem_of_singleton. }
  destruct (Ascii.eqb a c) eqn:Ha.
  - intros [->|Hin]%elem_of_cons; [done|by apply IH].
  - pose proof (split_not_nil c s) as Hne.
    destruct (JsString.split c s) as [|seg0 rest]; [done|].
    intros [->|Hin]%elem_of_cons.
    + simpl. rewrite Ha. apply IH. by left.
    + apply IH. by right.
Qed.

Lemma at_index_elem_of {A} (l : list A) (i : Z) (x : A) :
  at_index l i = Some x → x ∈ l.
Proof.
  unfold at_index. destruct (i <? 0)%Z; [done|].
  intros Hx. by eapply list_elem_of_lookup_2.
Qed.

End own_filter_facts.

(** X18. A rerun keeps the filter this deployment creates: when the log
    group's first filter has the expected destination ARN and a name of the
    form [stack-logicalId-suffix] whose logical id is the expected one, with
    no hyphen in the logical id or the suffix (the stack name may hold any),
    [fixLogGroupSubscriptionFilters] only describes and resolves with
    [false]. *)
Theorem fixLogGroupSubscriptionFilters_keeps_own_filter (this : Plugin)
    (params : FixParams) (s : Session) (stackName suffix : string)
    (others : list CloudWatchLogs.SubscriptionFilter) :
  let expectedLogicalId :=
    getCloudWatchLogLogicalId this (p_functionName params)
      (p_logSubscriptionSerialNumber params) in
  JsString.count "-" expectedLogicalId = 0%nat →
  JsString.count "-" suffix = 0%nat →
  request_describeSubscriptionFilters this (p_logGroupName params)
  = Resolved
      {| CloudWatchLogs.subscriptionFilters :=
           {| CloudWatchLogs.filterName :=
                stackName +:+ "-" +:+ expectedLogicalId +:+ "-" +:+ suffix;
              CloudWatchLogs.destinationArn :=
                "arn:" +:+ p_partition params +:+ ":lambda:" +:+ p_region params
                +:+ ":" +:+ p_accountId params +:+ ":function:"
                +:+ name (p_functionObj params) |}
           :: others |} →
  fixLogGroupSubscriptionFilters this params s
  = (Resolved ReturnedFalse,
     record (CloudWatchLogs_describeSubscriptionFilters (p_logGroupName params)) s).
Proof.
  intros expectedLogicalId Hid Hsuffix Hdescribe.
  unfold fixLogGroupSubscriptionFilters, catch_, then_, perform, resolve.
  cbv zeta. rewrite Hdescribe.
  cbn [CloudWatchLogs.subscriptionFilters CloudWatchLogs.filterName
         CloudWatchLogs.destinationArn].
  rewrite getLogicalId_of_segments by done.
  fold expectedLogicalId. rewrite bool_decide_eq_true_2 by done.
  unfold newDestinationArnOf. by rewrite String.eqb_refl.
Qed.

(** X19. The logical id [getLogicalIdFromFilterName] derives never holds a
    hyphen. So when the logical id this deployment expects holds one, the
    first filter of the log group is deleted whatever its name and
    destination. *)
Theorem getLogicalIdFromFilterName_hyphen_free :
  (∀ filterName logicalId,
     getLogicalIdFromFilterName filterName = Some logicalId →
     JsString.count "-" logicalId = 0%nat)
  ∧ (∀ this params s subscriptionFilter others,
       request_describeSubscriptionFilters this (p_logGroupName params)
       = Resolved
           {| CloudWatchLogs.subscriptionFilters := subscriptionFilter :: others |} →
       JsString.count "-"
         (getCloudWatchLogLogicalId this (p_functionName params)
            (p_logSubscriptionSerialNumber params)) ≠ 0%nat →
       calls (fixLogGroupSubscriptionFilters this params s).2
       = calls s
         ++ [ CloudWatchLogs_describeSubscriptionFilters (p_logGroupName params);
              CloudWatchLogs_deleteSubscriptionFilter (p_logGroupName params)
                (CloudWatchLogs.filterName subscriptionFilter) ]).
Proof.
  assert (Hfree : ∀ filterName logicalId,
             getLogicalIdFromFilterName filterName = Some logicalId →
             JsString.count "-" logicalId = 0%nat).
  { intros filterName logicalId Hid.
    apply at_index_elem_of in Hid. by eapply split_segments_no_separator. }
  split; [exact Hfree|].
  intros this params s subscriptionFilter others Hdescribe Hhyphen.
  unfold fixLogGroupSubscriptionFilters, catch_, then_, perform, resolve.
  cbv zeta. rewrite Hdescribe. cbn [CloudWatchLogs.subscriptionFilters].
  rewrite bool_decide_eq_false_2, andb_false_r.
  - destruct (request_deleteSubscriptionFilter this _ _); simpl;
      by rewrite <- app_assoc.
  - intros Hid. apply Hfree in Hid. done.
Qed.

Lemma fixLogGroupSubscriptionFilters_keeps_own_filter_witness :
  fixLogGroupSubscriptionFilters
    (samplePlugin true noListing noObject (functionAt 2000)
       (Resolved
          {| CloudWatchLogs.subscriptionFilters :=
               [ {| CloudWatchLogs.filterName :=
                      "my-stack-basicLogsSubscriptionFilterCloudWatchLog1-AB12CD";
                    CloudWatchLogs.destinationArn :=
                      "arn:aws:lambda:us-east-1:123456789012:function:service-dev-basic" |} ] |})
       deleteDenied)
    sampleFixParams newSession
  = (Resolved ReturnedFalse,
     record (CloudWatchLogs_describeSubscriptionFilters "/aws/lambda/source")
       newSession).
Proof.
  exact (fixLogGroupSubscriptionFilters_keeps_own_filter
           (samplePlugin true noListing noObject (functionAt 2000)
              (Resolved
                 {| CloudWatchLogs.subscriptionFilters :=
                      [ {| CloudWatchLogs.filterName :=
                             "my-stack-basicLogsSubscriptionFilterCloudWatchLog1-AB12CD";
                           CloudWatchLogs.destinationArn :=
                             "arn:aws:lambda:us-east-1:123456789012:function:service-dev-basic" |} ] |})
              deleteDenied)
           sampleFixParams newSession "my-stack" "AB12CD" [] eq_refl eq_refl eq_refl).
Defined.


Lemma checkForChanges_listing_rejected_witness :
  (checkForChanges bucketGonePlugin newSession).1
  = Rejected
      (ServerlessError (bucketMissingMessage "deployment-bucket" "service-dev")).
Proof.
  rewrite (checkForChanges_listing_rejected bucketGonePlugin newSession
             {| message := "The specified bucket does not exist";
                providerError := Some {| statusCode := 404 |} |}
             eq_refl eq_refl).
  reflexivity.
Defined.

(** * The verdict, on the stored hashes and the artifacts on disk *)

Section stored_gate_facts.

(** The hash the check takes for an object is the stored one. *)
Lemma remoteHash_StoredHash (object : S3.HeadObjectOutput) (h : string) :
  StoredHash object h ↔ h = remoteHash object.
Proof.
  unfold StoredHash, remoteHash. split.
  - intros [-> | [-> ->]]; [|done].
    by destruct (String.eqb_spec h "") as [->|].
  - intros ->. destruct (S3.Metadata object !! "filesha256") as [h'|]; [|by right].
    left. by destruct (String.eqb_spec h' "") as [->|].
Qed.

Lemma RemoteHashes_remoteHash (objects : list S3.HeadObjectOutput)
    (remoteHashes : list string) :
  RemoteHashes objects remoteHashes ↔ remoteHashes = map remoteHash objects.
Proof.
  unfold RemoteHashes. split.
  - induction 1 as [|o h os hs Hh _ IH]; [done|].
    apply remoteHash_StoredHash in Hh. simpl. congruence.
  - intros ->. induction objects as [|o os IH]; constructor; [|done].
    by apply remoteHash_StoredHash.
Qed.

(** The paths the check hashes are the artifacts, each once. *)
Lemma zipFilePaths_artifacts (this : Plugin) :
  NoDup (zipFilePathsOf this).2
  ∧ ∀ path, path ∈ (zipFilePathsOf this).2 ↔ ArtifactFile this path.
Proof.
  unfold zipFilePathsOf, ArtifactFile, serverlessDir, unique. cbv zeta.
  cbn [fst snd].
  set (dir := path_join this (servicePath this) ".serverless").
  match goal with
  | |- context [uniqueFrom [] ?xs] =>
      destruct (uniqueFrom_spec [] xs) as [Hnd Hin]
  end.
  split; [done|]. intros path. rewrite Hin. clear Hnd Hin.
  rewrite list_elem_of_In, in_map_iff.
  destruct (package_artifact this) as [artifact|] eqn:Hart.
  - destruct (String.eqb_spec artifact "") as [Hempty|Hne].
    + split.
      * intros [(zipFile & <- & Hz) _]. left. exists zipFile.
        by split; [apply list_elem_of_In|].
      * intros [(zipFile & Hz & ->)|(artifact' & [= <-] & Hne & _)]; [|done].
        split; [|by apply not_elem_of_nil].
        exists zipFile. by split; [|apply list_elem_of_In].
    + split.
      * intros [(zipFile & <- & Hz) _].
        apply in_app_or in Hz as [Hz|[<-|[]]].
        -- left. exists zipFile. by split; [apply list_elem_of_In|].
        -- right. by exists artifact.
      * intros [(zipFile & Hz & ->)|(artifact' & [= <-] & _ & ->)];
          (split; [|by apply not_elem_of_nil]).
        -- exists zipFile. split; [done|]. apply in_or_app. left.
           by apply list_elem_of_In.
        -- exists (path_resolve this (servicePath this) artifact).
           split; [done|]. apply in_or_app. right. by left.
  - split.
    + intros [(zipFile & <- & Hz) _]. left. exists zipFile.
      by split; [apply list_elem_of_In|].
    + intros [(zipFile & Hz & ->)|(artifact' & [=] & _)].
      split; [|by apply not_elem_of_nil].
      exists zipFile. by split; [|apply list_elem_of_In].
Qed.

Lemma fileHash_contents (this : Plugin) (paths contents : list string) :
  Forall2 (λ path content, readFile this path = Resolved content) paths contents →
  map (fileHash this) paths = map Resolved (map (sha256_base64 this) contents).
Proof.
  induction 1 as [|path content paths contents Hread _ IH]; [done|].
  simpl. rewrite IH. unfold fileHash at 1. by rewrite Hread.
Qed.

Lemma contents_of_fileHash (this : Plugin) (paths zipFileHashes : list string) :
  map (fileHash this) paths = map Resolved zipFileHashes →
  ∃ contents,
    Forall2 (λ path content, readFile this path = Resolved content) paths contents
    ∧ zipFileHashes = map (sha256_base64 this) contents.
Proof.
  revert zipFileHashes. induction paths as [|path paths IH];
    intros [|z zs] Heq; simplify_eq/=.
  { exists []. by split; [constructor|]. }
  destruct (IH zs) as (contents & Hall & ->); [done|].
  unfold fileHash in *. destruct (readFile this path) as [content|] eqn:Hread;
    simplify_eq.
  exists (content :: contents). by split; [constructor|].
Qed.

(** The hash list the check builds is a local hash list, and every local
    hash list is the one the check builds, up to order. *)
Lemma LocalHashes_LocalHashList (this : Plugin) :
  (∀ localHashes, LocalHashes this localHashes → LocalHashList this localHashes)
  ∧ (∀ localHashes,
       LocalHashList this localHashes →
       ∃ built, LocalHashes this built ∧ built ≡ₚ localHashes).
Proof.
  destruct (zipFilePaths_artifacts this) as [Hnd Hin]. split.
  - intros localHashes (zipFileHashes & Hall & ->).
    apply settleAll_Resolved, contents_of_fileHash in Hall
      as (contents & Hread & ->).
    by exists (zipFilePathsOf this).2, contents.
  - intros localHashes (paths & contents & Hnd' & Hin' & Hread & ->).
    assert (Hperm : (zipFilePathsOf this).2 ≡ₚ paths).
    { apply NoDup_Permutation; [done..|]. intros path. by rewrite Hin, Hin'. }
    apply fileHash_contents in Hread.
    assert (Hmap : map (fileHash this) (zipFilePathsOf this).2
                   ≡ₚ map Resolved (map (sha256_base64 this) contents)).
    { rewrite <- Hread. by apply Permutation_map. }
    apply Permutation_map_inv in Hmap as (built & Hbuilt & Hperm').
    exists (built ++ [sha256_base64 this (normCfTemplateJson this)]). split.
    + exists built. split; [by apply settleAll_Resolved|done].
    + by rewrite <- Hperm'.
Qed.

(** The two gates as the check computes them pass exactly when they pass on
    the stored hashes and the artifacts on disk. *)
Lemma gates_on_stored_hashes (this : Plugin)
    (objects : list S3.HeadObjectOutput) (funcLastModifiedDate : option Z) :
  (∃ localHashes,
     LocalHashes this localHashes
     ∧ GateA objects funcLastModifiedDate
     ∧ GateB objects localHashes)
  ↔ (∃ localHashes,
       LocalHashList this localHashes
       ∧ GateA objects funcLastModifiedDate
       ∧ HashGate objects localHashes).
Proof.
  destruct (LocalHashes_LocalHashList this) as [Hto Hfrom].
  unfold GateB, HashGate. split.
  - intros (localHashes & Hlocal & HA & HB).
    exists localHashes. split; [by apply Hto|]. split; [done|].
    exists (map remoteHash objects). by split; [apply RemoteHashes_remoteHash|].
  - intros (localHashes & Hlocal & HA & remoteHashes & Hremote & HB).
    apply RemoteHashes_remoteHash in Hremote as ->.
    destruct (Hfrom _ Hlocal) as (built & Hbuilt & Hperm).
    exists built. split; [done|]. split; [done|]. by rewrite Hperm.
Qed.

End stored_gate_facts.

(** C1. Starting from [shouldNotDeploy = false], the evaluation of a
    non-empty remote object list sets the flag exactly when a local hash
    list exists (every artifact on disk, that is every zip file found under
    [.serverless] and the declared [package.artifact], can be read; the list
    holds the hash of each artifact's content once and the template hash),
    no remote object was modified strictly after the earliest function
    modification (Gate A), and the [filesha256] values stored with the
    remote objects equal the local hashes as multisets (Gate B); for an
    empty remote object list the flag stays false. The same holds of the
    whole unforced evaluation, with the remote objects being the metadata of
    the latest generation and the date the one the function scan resolves
    with. *)
Theorem checkIfDeploymentIsNecessary_verdict (this : Plugin)
    (objects : list S3.HeadObjectOutput) (funcLastModifiedDate : option Z)
    (s : Session) :
  shouldNotDeploy s = false →
  (shouldNotDeploy
     (checkIfDeploymentIsNecessary this objects funcLastModifiedDate s).2 = true
   ↔ objects ≠ []
     ∧ ∃ localHashes,
         LocalHashList this localHashes
         ∧ GateA objects funcLastModifiedDate
         ∧ HashGate objects localHashes)
  ∧ (objects = [] →
     shouldNotDeploy
       (checkIfDeploymentIsNecessary this objects funcLastModifiedDate s).2 = false)
  ∧ (shouldNotDeploy (evaluation this s).2 = true
     ↔ ∃ objs remoteObjects earliest,
         (getMostRecentObjects this newSession).1 = Resolved objs
         ∧ (getObjectMetadata this objs newSession).1 = Resolved remoteObjects
         ∧ (getFunctionsEarliestLastModifiedDate this newSession).1
           = Resolved earliest
         ∧ remoteObjects ≠ []
         ∧ ∃ localHashes,
             LocalHashList this localHashes
             ∧ GateA remoteObjects earliest
             ∧ HashGate remoteObjects localHashes).
Proof.
  intros Hs. split; [|split].
  - rewrite skip_iff_gates by done.
    split; intros [Hne Hgates]; (split; [done|]);
      by apply gates_on_stored_hashes.
  - intros ->. by rewrite checkIfDeploymentIsNecessary_flag.
  - rewrite evaluation_skip_iff by done.
    split; intros (objs & remoteObjects & earliest & Hobjs & Hmeta & Hscan
                   & Hne & Hgates);
      exists objs, remoteObjects, earliest; (repeat (split; [done|]));
      by apply gates_on_stored_hashes.
Qed.

(** X10. Whatever [shouldNotDeploy] was before, [checkForChanges] ends with
    it set exactly when the check is not forced, the listing, the metadata
    fetches and the function scan resolve, the latest generation has
    metadata, every artifact on disk can be read, no object of the
    generation was modified after the earliest function modification, and
    the stored [filesha256] values equal the hashes of the artifacts and of
    the template as multisets; it then resolves. A flag left set by an
    earlier check has no influence. *)
Theorem checkForChanges_skips_iff (this : Plugin) (s : Session) :
  (shouldNotDeploy (checkForChanges this s).2 = true
   ↔ force this = false
     ∧ ∃ objs remoteObjects earliest,
         (getMostRecentObjects this newSession).1 = Resolved objs
         ∧ (getObjectMetadata this objs newSession).1 = Resolved remoteObjects
         ∧ (getFunctionsEarliestLastModifiedDate this newSession).1
           = Resolved earliest
         ∧ remoteObjects ≠ []
         ∧ ∃ localHashes,
             LocalHashList this localHashes
             ∧ GateA remoteObjects earliest
             ∧ HashGate remoteObjects localHashes)
  ∧ (shouldNotDeploy (checkForChanges this s).2 = true →
     (checkForChanges this s).1 = Resolved tt).
Proof.
  assert (Hwords :
    (∃ objs remoteObjects earliest,
        (getMostRecentObjects this newSession).1 = Resolved objs
        ∧ (getObjectMetadata this objs newSession).1 = Resolved remoteObjects
        ∧ (getFunctionsEarliestLastModifiedDate this newSession).1
          = Resolved earliest
        ∧ remoteObjects ≠ []
        ∧ ∃ localHashes,
            LocalHashList this localHashes
            ∧ GateA remoteObjects earliest
            ∧ HashGate remoteObjects localHashes)
    ↔ shouldNotDeploy
        (evaluation this {| shouldNotDeploy := false; calls := calls s |}).2
      = true).
  { rewrite evaluation_skip_iff by done.
    split; intros (objs & remoteObjects & earliest & Hobjs & Hmeta & Hscan
                   & Hne & Hgates);
      exists objs, remoteObjects, earliest; (repeat (split; [done|]));
      by apply gates_on_stored_hashes. }
  rewrite Hwords. clear Hwords.
  rewrite !checkForChanges_run. cbv zeta.
  set (s0 := {| shouldNotDeploy := false; calls := calls s |}).
  destruct (force this).
  - pose proof (keeps_reconciler this s0) as Hflag.
    destruct (checkLogGroupSubscriptionFilterResourceLimitExceeded this s0)
      as [[v|reason] s1]; simpl in *; rewrite Hflag;
      (split; [split; [done|by intros [? _]]|done]).
  - pose proof (evaluation_rejected_flag this s0) as Hrej.
    destruct (evaluation this s0) as [[v|reason] s1]; simpl in Hrej |- *.
    + destruct (shouldNotDeploy s1) eqn:Hskip.
      * simpl. rewrite Hskip. by split.
      * pose proof (keeps_reconciler this s1) as Hflag.
        destruct (checkLogGroupSubscriptionFilterResourceLimitExceeded this s1)
          as [[v'|reason] s2]; simpl in *; rewrite Hflag, Hskip;
          (split; [|done]); (split; [done|]); by intros [_ ?].
    + rewrite (Hrej reason eq_refl). simpl.
      split; [|done]. split; [done|]. by intros [_ ?].
Qed.

(** X13. For a non-empty remote object list, the files
    [checkIfDeploymentIsNecessary] reads are exactly the artifacts on disk:
    every zip file found under [.serverless] and the artifact declared in
    [package.artifact] (when it is not empty), resolved, each path once
    however often it is found; a failing read does not stop the reads after
    it. *)
Theorem checkIfDeploymentIsNecessary_reads_once (this : Plugin)
    (objects : list S3.HeadObjectOutput) (funcLastModifiedDate : option Z)
    (s : Session) :
  objects ≠ [] →
  ∃ new,
    calls (checkIfDeploymentIsNecessary this objects funcLastModifiedDate s).2
    = calls s ++ new
    ∧ NoDup (readPaths new)
    ∧ ∀ path, path ∈ readPaths new ↔ ArtifactFile this path.
Proof.
  intros Hne. destruct objects as [|o os]; [done|].
  destruct (zipFilePaths_artifacts this) as [Hnd Hin].
  rewrite checkIfDeploymentIsNecessary_run.
  destruct (settleAll _) as [zipFileHashes|reason]; cbv zeta;
    eexists; (split; [reflexivity|]); unfold preambleCalls;
    rewrite ?readPaths_app, ?readPaths_verdictCalls, readPaths_hashCalls;
    cbn [readPaths flat_map app]; by rewrite ?app_nil_r.
Qed.

Section declared_bindings_facts.

Lemma bindsLogGroup_logGroupNameOf (event : Event) :
  bindsLogGroup event = true ↔ is_Some (logGroupNameOf event).
Proof.
  unfold bindsLogGroup, logGroupNameOf.
  destruct (cloudwatchLog event) as [[g|g]|].
  - destruct (String.eqb g ""); simpl; [|by split; [eexists|]].
    split; [done|by intros [? ?]].
  - by split; [eexists|].
  - split; [done|by intros [? ?]].
Qed.

Lemma bindings_bindsLogGroup (evs : list Event) :
  bindings evs = Z.of_nat (length (List.filter bindsLogGroup evs)).
Proof.
  induction evs as [|e evs IH]; [done|].
  rewrite bindings_cons, IH. simpl.
  pose proof (bindsLogGroup_logGroupNameOf e) as He.
  destruct (bindsLogGroup e), (logGroupNameOf e) as [lg|]; simpl.
  - lia.
  - by destruct (proj1 He eq_refl).
  - assert (false = true) by (apply He; by exists lg). done.
  - done.
Qed.

Lemma totalBindings_declared (this : Plugin) :
  totalBindings this = Z.of_nat (declaredBindings this).
Proof.
  unfold totalBindings, declaredBindings.
  induction (getAllFunctions this) as [|f fs IH]; [done|].
  simpl. rewrite IH, Nat2Z.inj_add.
  destruct (events (getFunction this f)); [|done].
  by rewrite bindings_bindsLogGroup.
Qed.

(** The tally of the whole reconciler, after the account lookup. *)
Lemma tally_reconciler (this : Plugin) (account : AccountInfo) :
  Tally (declaredBindings this)
    (all (map (λ functionName,
                 match events (getFunction this functionName) with
                 | None => resolve []
                 | Some evs =>
                     all (eventPromises this account (getRegion this)
                            functionName (getFunction this functionName) 0 evs)
                 end) (getAllFunctions this))).
Proof.
  assert (Hall : ∃ ns,
             sum_list ns = declaredBindings this
             ∧ Forall2 Tally ns
                 (map (λ functionName,
                         match events (getFunction this functionName) with
                         | None => resolve []
                         | Some evs =>
                             all (eventPromises this account (getRegion this)
                                    functionName (getFunction this functionName)
                                    0 evs)
                         end) (getAllFunctions this))).
  { unfold declaredBindings.
    induction (getAllFunctions this) as [|f fs IH].
    { exists []. split; [done|constructor]. }
    destruct IH as (ns & Hsum & Hall). simpl.
    destruct (events (getFunction this f)) as [evs|].
    - exists (Z.to_nat (bindings evs) :: ns). split.
      + simpl. rewrite Hsum, bindings_bindsLogGroup. lia.
      + constructor; [apply tally_eventPromises|done].
    - exists (0%nat :: ns). split; [by simpl; rewrite Hsum|].
      constructor; [apply tally_resolve|done]. }
  destruct Hall as (ns & <- & Hall). by apply tally_all.
Qed.

End declared_bindings_facts.

(** X15. Once the account lookup has resolved, the reconciler calls
    [provider.request] for [describeSubscriptionFilters] exactly once for
    every log subscription the functions declare (an event whose
    [cloudwatchLog] is an object or a non-empty string), and not for
    functions without events or events without one; it calls it for
    [deleteSubscriptionFilter] at most once per declared log subscription.
    These are the calls the module makes: the describe calls are made with
    [useCache], and whether the request layer answers one from its cache is
    outside the module. *)
Theorem reconciler_request_counts (this : Plugin) (s : Session)
    (account : AccountInfo) :
  getAccountInfo this = Resolved account →
  ∃ new,
    calls (checkLogGroupSubscriptionFilterResourceLimitExceeded this s).2
    = calls s ++ Provider_getAccountInfo :: new
    ∧ countCalls isDescribeCall new = declaredBindings this
    ∧ (countCalls isDeleteCall new ≤ declaredBindings this)%nat.
Proof.
  intros Haccount.
  unfold checkLogGroupSubscriptionFilterResourceLimitExceeded, then_, perform.
  cbv zeta. rewrite Haccount.
  destruct (tally_reconciler this account (record Provider_getAccountInfo s))
    as (new & Hcalls & Hdescribe & Hdelete).
  exists new. rewrite Hcalls. simpl. rewrite <- app_assoc.
  by split.
Qed.

(** ** The verdict on the sample service *)

Section sample_gate_facts.

Lemma sample_LocalHashList (forced : bool)
    (listing : Settled S3.ListObjectsV2Output)
    (headObject : string → Settled S3.HeadObjectOutput)
    (getFunctionAnswer : string → Settled Lambda.GetFunctionOutput)
    (describe : Settled CloudWatchLogs.DescribeSubscriptionFiltersOutput)
    (deleteAnswer : Settled unit) :
  LocalHashList
    (samplePlugin forced listing headObject getFunctionAnswer describe deleteAnswer)
    ["sha256:zip:/srv/.serverless/service.zip"; "sha256:{}"].
Proof.
  exists ["/srv/.serverless/service.zip"], ["zip:/srv/.serverless/service.zip"].
  split; [apply NoDup_singleton|]. split; [|split; [|done]].
  - intros path. rewrite list_elem_of_singleton. split.
    + intros ->. left. exists "service.zip". split; [by left|done].
    + intros [(zipFile & Hz & ->)|(artifact & [=] & _)].
      by apply list_elem_of_singleton in Hz as ->.
  - by repeat constructor.
Qed.

Lemma sample_GateA : GateA unchangedObjects (Some 2000).
Proof.
  intros object t Hin Ht. simpl.
  apply elem_of_cons in Hin as [->|Hin];
    [|apply list_elem_of_singleton in Hin as ->];
    simpl in Ht; injection Ht as <-; lia.
Qed.

Lemma sample_HashGate :
  HashGate unchangedObjects
    ["sha256:zip:/srv/.serverless/service.zip"; "sha256:{}"].
Proof.
  exists ["sha256:zip:/srv/.serverless/service.zip"; "sha256:{}"].
  split; [|done].
  repeat constructor; left; simpl; apply lookup_singleton_eq.
Qed.

End sample_gate_facts.

Lemma checkIfDeploymentIsNecessary_verdict_witness :
  shouldNotDeploy
    (checkIfDeploymentIsNecessary quietPlugin unchangedObjects (Some 2000)
       newSession).2 = true.
Proof.
  apply (proj2 (proj1 (checkIfDeploymentIsNecessary_verdict quietPlugin
                         unchangedObjects (Some 2000) newSession eq_refl))).
  split; [discriminate|].
  exists ["sha256:zip:/srv/.serverless/service.zip"; "sha256:{}"].
  split; [apply sample_LocalHashList|].
  split; [apply sample_GateA|apply sample_HashGate].
Defined.

Lemma checkForChanges_skips_iff_witness :
  shouldNotDeploy (checkForChanges unchangedPlugin newSession).2 = true.
Proof.
  apply (proj2 (proj1 (checkForChanges_skips_iff unchangedPlugin newSession))).
  split; [reflexivity|].
  exists sampleLatest, unchangedObjects, (Some 2000).
  split; [vm_compute; reflexivity|].
  split; [vm_compute; reflexivity|].
  split; [vm_compute; reflexivity|].
  split; [discriminate|].
  exists ["sha256:zip:/srv/.serverless/service.zip"; "sha256:{}"].
  split; [apply sample_LocalHashList|].
  split; [apply sample_GateA|apply sample_HashGate].
Defined.

Lemma checkIfDeploymentIsNecessary_reads_once_witness :
  ∃ new,
    calls (checkIfDeploymentIsNecessary artifactPlugin unchangedObjects
             (Some 2000) newSession).2 = calls newSession ++ new
    ∧ "/srv/.serverless/service.zip" ∈ readPaths new
    ∧ "/srv/dist/app.zip" ∈ readPaths new.
Proof.
  destruct (checkIfDeploymentIsNecessary_reads_once artifactPlugin
              unchangedObjects (Some 2000) newSession)
    as (new & Hcalls & _ & Hreads).
  - discriminate.
  - exists new. split; [exact Hcalls|]. split; apply Hreads.
    + left. exists "service.zip". split; [by left|reflexivity].
    + right. exists "dist/app.zip".
      split; [reflexivity|]. split; [discriminate|reflexivity].
Defined.

Lemma reconciler_request_counts_witness :
  ∃ new,
    calls (checkLogGroupSubscriptionFilterResourceLimitExceeded quietPlugin
             newSession).2
    = calls newSession ++ Provider_getAccountInfo :: new
    ∧ countCalls isDescribeCall new = 1%nat.
Proof.
  destruct (reconciler_request_counts quietPlugin newSession
              {| accountId := "123456789012"; partition := "aws" |} eq_refl)
    as (new & Hcalls & Hcount & _).
  exists new. split; [exact Hcalls|exact Hcount].
Defined.
